(** * Music visualizer: the audio-reactive engine

    A shallow embedding of the feature extraction ([AudioAnalyzer],
    [getBassEnergy]), the hue easing and the per-element animation of
    [HolidayVisualization], the transport of [AudioPlayer] and of the [App]
    component, and the visualization-switch effect of the [Visualizer]
    component, with the properties the specification states about them.

    Numbers.  JavaScript numbers are modelled as exact rationals ([Q]); the
    values a division can produce beyond them ([NaN], the infinities) are
    written out in [JS.number], and so are the arguments of the setters
    that clamp ([setVolume], [setReactivityLevel], [setMediaDuration]) and
    the result of the hue lookup.  The times of the transport ([seekTo],
    [handleSeek]) are finite numbers.  Rounding of binary floating point
    is outside the model. *)

From Stdlib Require Import ZArith QArith Qround Qabs Lqa Lia.
From Stdlib Require Import String Bool List Sorted.
From Stdlib Require Import Strings.Byte.
Import ListNotations.

Local Open Scope Q_scope.

(* ================================================================== *)
(** ** JavaScript numbers and typed arrays *)
(* ================================================================== *)

Module JS.

(** A number: a finite value, or one of the three special values. *)
Inductive number : Type :=
| Num (q : Q)
| PosInf
| NegInf
| NaN.

(** Finite results are kept in lowest terms, so that equal numbers are
    equal terms. *)
Definition num (q : Q) : number := Num (Qred q).

(** [a / b] on finite operands: [0/0] is [NaN], [x/0] is an infinity. *)
Definition div (a b : Q) : number :=
  if Qeq_bool b 0 then
    if Qeq_bool a 0 then NaN
    else if Qlt_le_dec 0 a then PosInf else NegInf
  else num (a / b).

(** [n / d] for a number [n] and a finite divisor [d]. *)
Definition div_num (n : number) (d : Q) : number :=
  match n with
  | Num a => div a d
  | PosInf =>
      if Qeq_bool d 0 then PosInf
      else if Qlt_le_dec 0 d then PosInf else NegInf
  | NegInf =>
      if Qeq_bool d 0 then NegInf
      else if Qlt_le_dec 0 d then NegInf else PosInf
  | NaN => NaN
  end.

(** [x % y] on finite operands with [y <> 0]: the remainder of the
    division truncated toward zero; its sign is that of [x]. *)
Definition trunc (x : Q) : Z := Z.quot (Qnum x) (Zpos (Qden x)).
Definition rem (x y : Q) : Q := x - y * inject_Z (trunc (x / y)).

Definition Math_abs (x : Q) : Q := Qabs x.
Definition Math_min (a b : Q) : Q := if Qlt_le_dec b a then b else a.
Definition Math_max (a b : Q) : Q := if Qlt_le_dec a b then b else a.
Definition Math_floor (x : Q) : Z := Qfloor x.

(** [a < b] and [a > b] as the tests of an [if]. *)
Definition ltb (a b : Q) : bool := if Qlt_le_dec a b then true else false.
Definition gtb (a b : Q) : bool := ltb b a.

(** [Math.min] and [Math.max] with an argument that need not be finite:
    the result is [NaN] as soon as an argument is [NaN], and the
    infinities lie below and above every finite value. *)
Definition min_number (a b : number) : number :=
  match a, b with
  | NaN, _ | _, NaN => NaN
  | NegInf, _ | _, NegInf => NegInf
  | PosInf, x | x, PosInf => x
  | Num x, Num y => Num (Math_min x y)
  end.

Definition max_number (a b : number) : number :=
  match a, b with
  | NaN, _ | _, NaN => NaN
  | PosInf, _ | _, PosInf => PosInf
  | NegInf, x | x, NegInf => x
  | Num x, Num y => Num (Math_max x y)
  end.

(** [a > b] on numbers: false when one of them is [NaN]. *)
Definition gt_number (a b : number) : bool :=
  match a, b with
  | NaN, _ | _, NaN => false
  | PosInf, PosInf => false
  | PosInf, _ => true
  | _, PosInf => false
  | NegInf, _ => false
  | _, NegInf => true
  | Num x, Num y => gtb x y
  end.

(** A [Uint8Array]: every element is a byte. *)
Definition Uint8Array : Type := list byte.

(** The numeric value of an element. *)
Definition val (b : byte) : Z := Z.of_N (Byte.to_N b).

(** [a[i]] for [i] inside the array (the loops below never leave it). *)
Definition get (a : Uint8Array) (i : nat) : Z := val (nth i a x00).

(** The byte holding [n], for [n] below 256. *)
Definition u8 (n : N) : byte :=
  match Byte.of_N n with Some b => b | None => x00 end.

End JS.

(* ================================================================== *)
(** ** renderer/audio/analyzer.ts *)
(* ================================================================== *)

Module Analyzer.
Import JS.

Record AudioAnalysisData : Type := {
  frequencyData : Uint8Array;
  waveformData : Uint8Array;
  timeDomainData : Uint8Array;
  averageFrequency : number;
  peaks : list nat;
  bpm : option Q;
  instrumentPrediction : option string
}.

(** [let sum = 0; for (i = 0; i < length; i++) sum += frequencyData[i]] *)
Definition sumLoop (fd : Uint8Array) : Z :=
  fold_left (fun sum b => (sum + val b)%Z) fd 0%Z.

(** The test of the peak loop at index [i]. *)
Definition isPeak (fd : Uint8Array) (i : nat) : bool :=
  (get fd (i - 1) <? get fd i)%Z &&
  (get fd (i + 1) <? get fd i)%Z &&
  (200 <? get fd i)%Z.

(** [for (let i = ...; i < length - 1; i++) if (...) peaks.push(i)]:
    [n] is the number of iterations left. *)
Fixpoint peaksLoop (fd : Uint8Array) (n i : nat) (peaks : list nat)
  : list nat :=
  match n with
  | O => peaks
  | S n' =>
      peaksLoop fd n' (S i) (if isPeak fd i then peaks ++ [i] else peaks)
  end.

(** The loop starts at 1 and stops before [length - 1]. *)
Definition detectPeaks (fd : Uint8Array) : list nat :=
  peaksLoop fd (length fd - 2) 1 [].

(** The analyzer object: the nodes and buffers [initAudioContext] sets up
    (it leaves them [null] when the context cannot be created). *)
Record AudioAnalyzer : Type := {
  analyserNode : bool;
  hasFrequencyData : bool;
  hasTimeDomainData : bool
}.

(** [getAnalysisData]; [fd] and [td] are what [getByteFrequencyData] and
    [getByteTimeDomainData] write into the two buffers. *)
Definition getAnalysisData (a : AudioAnalyzer) (fd td : Uint8Array)
  : option AudioAnalysisData :=
  if negb (analyserNode a) || negb (hasFrequencyData a)
     || negb (hasTimeDomainData a)
  then None
  else
    let sum := sumLoop fd in
    let averageFrequency :=
      div (inject_Z sum) (inject_Z (Z.of_nat (length fd))) in
    Some {| frequencyData := fd;
            waveformData := fd;
            timeDomainData := td;
            averageFrequency := averageFrequency;
            peaks := detectPeaks fd;
            bpm := None;
            instrumentPrediction := None |}.

Definition ready : AudioAnalyzer :=
  {| analyserNode := true; hasFrequencyData := true;
     hasTimeDomainData := true |}.

End Analyzer.

(* ================================================================== *)
(** ** getBassEnergy (visualizations/rectangular.ts, sunburst.ts) *)
(* ================================================================== *)

Module Rectangular.
Import JS.

Section WithMath.
(** [Math.pow] is the platform's; the properties below state which of
    its values they rely on. *)
Variable Math_pow : number -> Q -> number.

(** The body of the loop, [n] iterations left, [i] the loop index. *)
Fixpoint bassLoop (frequencyData : Uint8Array) (bassRange : Q)
    (n i : nat) (energy weight : Q) : Q * Q :=
  match n with
  | O => (energy, weight)
  | S n' =>
      let frequencyWeight :=
        1 - (inject_Z (Z.of_nat i) / bassRange) * 0.7 in
      bassLoop frequencyData bassRange n' (S i)
        (energy + (inject_Z (get frequencyData i) / 255) * frequencyWeight)
        (weight + frequencyWeight)
  end.

Definition bassRangeOf (frequencyData : Uint8Array) : Z :=
  Math_floor (inject_Z (Z.of_nat (length frequencyData)) * 0.1).

Definition normalizedEnergy (frequencyData : Uint8Array) : number :=
  let bassRange := bassRangeOf frequencyData in
  let '(energy, weight) :=
    bassLoop frequencyData (inject_Z bassRange) (Z.to_nat bassRange)
      0%nat 0 0 in
  div energy weight.

Definition getBassEnergy (frequencyData : Uint8Array) : number :=
  Math_pow (normalizedEnergy frequencyData) 1.5.

End WithMath.

(** The values of [Math.pow] the properties use (ECMAScript,
    Number::exponentiate): a [NaN] base with a non-zero exponent gives
    [NaN]; base [+0] with a positive exponent gives [+0]. *)
Definition pow_laws (Math_pow : number -> Q -> number) : Prop :=
  (forall y, ~ y == 0 -> Math_pow NaN y = NaN) /\
  (forall y, 0 < y -> Math_pow (Num 0) y = Num 0).

(** An executable function with these values: the special cases of
    Number::exponentiate, otherwise the power for the integer part of the
    exponent. *)
Definition pow_int (b : number) (y : Q) : number :=
  if Qeq_bool y 0 then Num 1
  else match b with
       | Num q =>
           if Qeq_bool q 0 then (if Qlt_le_dec 0 y then Num 0 else PosInf)
           else num (Qpower q (Math_floor y))
       | PosInf => if Qlt_le_dec 0 y then PosInf else Num 0
       | NegInf => if Qlt_le_dec 0 y then PosInf else Num 0
       | NaN => NaN
       end.

(** *** The centre rectangle, the setters and the media items *)

Inductive MediaType : Type := image | video.

(** A media item; the DOM element it owns is named by its URL in the
    actions below. *)
Record MediaItem : Type := {
  mediaType : MediaType;
  url : string;
  loaded : bool
}.

(** What the visualization does to the media elements. *)
Inductive MediaAction : Type :=
| PauseVideo (u : string)
| ClearSource (u : string)
| LoadVideo (u : string)
| LoadImage (u : string)
| RestartVideo (u : string)
| PlayVideo (u : string)
| PlaySoon (u : string).

(** The fields of [RectangularVisualization] that the functions below
    read and write; [rectWidth] and [rectHeight] are the canvas size
    ([this.width], [this.height]). *)
Record RectangularVisualization : Type := {
  rectWidth : Q;
  rectHeight : Q;
  centerRectWidth : Q;
  centerRectHeight : Q;
  reactivityLevel : number;
  mediaItems : list MediaItem;
  currentMediaIndex : nat;
  lastMediaChangeTime : Z;
  mediaDuration : number;
  mediaLog : list MediaAction
}.

Definition setReactivityLevel (level : number)
    (r : RectangularVisualization)
  : RectangularVisualization :=
  {| rectWidth := rectWidth r; rectHeight := rectHeight r;
     centerRectWidth := centerRectWidth r;
     centerRectHeight := centerRectHeight r;
     reactivityLevel := max_number (Num 0.1) (min_number (Num 1.0) level);
     mediaItems := mediaItems r;
     currentMediaIndex := currentMediaIndex r;
     lastMediaChangeTime := lastMediaChangeTime r;
     mediaDuration := mediaDuration r; mediaLog := mediaLog r |}.

Definition setMediaDuration (duration : number)
    (r : RectangularVisualization)
  : RectangularVisualization :=
  {| rectWidth := rectWidth r; rectHeight := rectHeight r;
     centerRectWidth := centerRectWidth r;
     centerRectHeight := centerRectHeight r;
     reactivityLevel := reactivityLevel r;
     mediaItems := mediaItems r;
     currentMediaIndex := currentMediaIndex r;
     lastMediaChangeTime := lastMediaChangeTime r;
     mediaDuration := max_number (Num 1000) duration;
     mediaLog := mediaLog r |}.

Definition updateRectangleSize (r : RectangularVisualization)
  : RectangularVisualization :=
  let maxWidth := rectWidth r * 0.55 in
  let maxHeight := rectHeight r * 0.55 in
  let '(w, h) :=
    if Qle_bool (maxWidth / 16 * 9) maxHeight
    then (maxWidth, maxWidth / 16 * 9)
    else (maxHeight / 9 * 16, maxHeight) in
  {| rectWidth := rectWidth r; rectHeight := rectHeight r;
     centerRectWidth := w; centerRectHeight := h;
     reactivityLevel := reactivityLevel r;
     mediaItems := mediaItems r;
     currentMediaIndex := currentMediaIndex r;
     lastMediaChangeTime := lastMediaChangeTime r;
     mediaDuration := mediaDuration r; mediaLog := mediaLog r |}.

(** The letter [c] as the [i] flag of a regular expression compares it:
    [A]..[Z] become [a]..[z]. *)
Definition toLower (c : Ascii.ascii) : Ascii.ascii :=
  let n := Ascii.nat_of_ascii c in
  if (65 <=? n)%nat && (n <=? 90)%nat then Ascii.ascii_of_nat (n + 32)
  else c.

Fixpoint lowerCase (s : string) : string :=
  match s with
  | EmptyString => EmptyString
  | String c rest => String (toLower c) (lowerCase rest)
  end.

(** Some tail of [s] is [suffix]. *)
Fixpoint endsWith (suffix s : string) : bool :=
  String.eqb s suffix
  || match s with
     | EmptyString => false
     | String _ rest => endsWith suffix rest
     end.

(** [url.match(/\.(mp4|webm|ogg)$/i) !== null] *)
Definition isVideo (u : string) : bool :=
  endsWith ".mp4" (lowerCase u) || endsWith ".webm" (lowerCase u)
  || endsWith ".ogg" (lowerCase u).

Definition makeItem (u : string) : MediaItem :=
  {| mediaType := if isVideo u then video else image;
     url := u; loaded := false |}.

(** [setMediaItems], called at the time [now]. *)
Definition setMediaItems (items : list string) (now : Z)
    (r : RectangularVisualization) : RectangularVisualization :=
  let cleared :=
    flat_map
      (fun item =>
         match mediaType item with
         | video => [PauseVideo (url item); ClearSource (url item)]
         | image => []
         end) (mediaItems r) in
  let created :=
    map (fun u => if isVideo u then LoadVideo u else LoadImage u) items in
  let newItems := map makeItem items in
  match newItems with
  | [] =>
      {| rectWidth := rectWidth r; rectHeight := rectHeight r;
         centerRectWidth := centerRectWidth r;
         centerRectHeight := centerRectHeight r;
         reactivityLevel := reactivityLevel r;
         mediaItems := [];
         currentMediaIndex := currentMediaIndex r;
         lastMediaChangeTime := lastMediaChangeTime r;
         mediaDuration := mediaDuration r;
         mediaLog := mediaLog r ++ cleared |}
  | first :: _ =>
      {| rectWidth := rectWidth r; rectHeight := rectHeight r;
         centerRectWidth := centerRectWidth r;
         centerRectHeight := centerRectHeight r;
         reactivityLevel := reactivityLevel r;
         mediaItems := newItems;
         currentMediaIndex := 0;
         lastMediaChangeTime := now;
         mediaDuration := mediaDuration r;
         mediaLog :=
           mediaLog r ++ cleared ++ created
           ++ match mediaType first with
              | video => [PlaySoon (url first)]
              | image => []
              end |}
  end.

(** [updateMedia], called at the time [now]. *)
Definition updateMedia (now : Z) (r : RectangularVisualization)
  : RectangularVisualization :=
  if (1 <? length (mediaItems r))%nat
     && gt_number (Num (inject_Z (now - lastMediaChangeTime r)))
          (mediaDuration r)
  then
    let paused :=
      match nth_error (mediaItems r) (currentMediaIndex r) with
      | Some item =>
          match mediaType item with
          | video => [PauseVideo (url item)]
          | image => []
          end
      | None => []
      end in
    let next :=
      ((currentMediaIndex r + 1) mod length (mediaItems r))%nat in
    let started :=
      match nth_error (mediaItems r) next with
      | Some item =>
          match mediaType item with
          | video => if loaded item then [RestartVideo (url item)] else []
          | image => []
          end
      | None => []
      end in
    {| rectWidth := rectWidth r; rectHeight := rectHeight r;
       centerRectWidth := centerRectWidth r;
       centerRectHeight := centerRectHeight r;
       reactivityLevel := reactivityLevel r;
       mediaItems := mediaItems r;
       currentMediaIndex := next;
       lastMediaChangeTime := now;
       mediaDuration := mediaDuration r;
       mediaLog := mediaLog r ++ paused ++ started |}
  else r.

(** The item list with the first item whose URL is [u] marked as loaded
    ([mediaItems.find(item => item.url === url)]). *)
Fixpoint markLoaded (u : string) (items : list MediaItem)
  : list MediaItem :=
  match items with
  | [] => []
  | item :: rest =>
      if String.eqb (url item) u
      then {| mediaType := mediaType item; url := url item;
              loaded := true |} :: rest
      else item :: markLoaded u rest
  end.

(** The [onloadeddata] handler of the video element created for [u]; a
    video that is the current item starts to play. *)
Definition onloadeddata (u : string) (r : RectangularVisualization)
  : RectangularVisualization :=
  match find (fun item => String.eqb (url item) u) (mediaItems r) with
  | Some _ =>
      {| rectWidth := rectWidth r; rectHeight := rectHeight r;
         centerRectWidth := centerRectWidth r;
         centerRectHeight := centerRectHeight r;
         reactivityLevel := reactivityLevel r;
         mediaItems := markLoaded u (mediaItems r);
         currentMediaIndex := currentMediaIndex r;
         lastMediaChangeTime := lastMediaChangeTime r;
         mediaDuration := mediaDuration r;
         mediaLog :=
           mediaLog r
           ++ match nth_error (mediaItems r) (currentMediaIndex r) with
              | Some current =>
                  if String.eqb (url current) u then [PlayVideo u] else []
              | None => []
              end |}
  | None => r
  end.

(** The [onload] handler of the image created for [u]. *)
Definition onload (u : string) (r : RectangularVisualization)
  : RectangularVisualization :=
  match find (fun item => String.eqb (url item) u) (mediaItems r) with
  | Some _ =>
      {| rectWidth := rectWidth r; rectHeight := rectHeight r;
         centerRectWidth := centerRectWidth r;
         centerRectHeight := centerRectHeight r;
         reactivityLevel := reactivityLevel r;
         mediaItems := markLoaded u (mediaItems r);
         currentMediaIndex := currentMediaIndex r;
         lastMediaChangeTime := lastMediaChangeTime r;
         mediaDuration := mediaDuration r;
         mediaLog := mediaLog r |}
  | None => r
  end.

(** The constructor on a canvas of [w] by [h]: the field initialisers,
    then [initDefaults]. *)
Definition create (w h : Q) : RectangularVisualization :=
  updateRectangleSize
    {| rectWidth := w; rectHeight := h;
       centerRectWidth := 0; centerRectHeight := 0;
       reactivityLevel := Num 1.0;
       mediaItems := []; currentMediaIndex := 0;
       lastMediaChangeTime := 0; mediaDuration := Num 5000;
       mediaLog := [] |}.

(** The current index names an item, unless there is none. *)
Definition validIndex (r : RectangularVisualization) : Prop :=
  mediaItems r = [] \/ (currentMediaIndex r < length (mediaItems r))%nat.

End Rectangular.

(* ================================================================== *)
(** ** visualizations/holiday.ts *)
(* ================================================================== *)

Module Holiday.
Import JS.
Import Analyzer.

Inductive HolidayElementType : Type :=
| ROOFLINE | WINDOW | DOOR | CHIMNEY | TREE | BUSH
| SNOWMAN | REINDEER | STAR | GIFT | SANTA.

Inductive AnimationPattern : Type :=
| STATIC | BLINK | CHASE | WAVE | TWINKLE | STROBE | FADE | ALTERNATE.

(** A colour: a CSS string of the scene, or the template
    [hsl(${hue}, 100%, 50%)]. *)
Inductive Color : Type :=
| Css (s : string)
| Hsl (hue : number).

(** [state: any]: the fields the animation patterns read and write.  The
    scene creates every element whose pattern reads a field with that
    field set to 0 ([createRoof], [createOrnaments], ...). *)
Record ElementState : Type := {
  position : Q;
  strobePhase : Q;
  fadeLevel : Q;
  colorIndex : nat;
  wavePosition : Q
}.

Record LightElement : Type := {
  type : HolidayElementType;
  x : Q;
  y : Q;
  width : Q;
  height : Q;
  color : Color;
  brightness : Q;
  active : bool;
  pattern : AnimationPattern;
  freqRange : nat * nat;
  instrument : option string;
  points : option (list (Q * Q));
  lastUpdateTime : Z;
  state : ElementState
}.

Definition with_brightness (b : Q) (e : LightElement) : LightElement :=
  {| type := type e; x := x e; y := y e; width := width e;
     height := height e; color := color e; brightness := b;
     active := active e; pattern := pattern e; freqRange := freqRange e;
     instrument := instrument e; points := points e;
     lastUpdateTime := lastUpdateTime e; state := state e |}.

Definition with_active (a : bool) (e : LightElement) : LightElement :=
  {| type := type e; x := x e; y := y e; width := width e;
     height := height e; color := color e; brightness := brightness e;
     active := a; pattern := pattern e; freqRange := freqRange e;
     instrument := instrument e; points := points e;
     lastUpdateTime := lastUpdateTime e; state := state e |}.

Definition with_color (c : Color) (e : LightElement) : LightElement :=
  {| type := type e; x := x e; y := y e; width := width e;
     height := height e; color := c; brightness := brightness e;
     active := active e; pattern := pattern e; freqRange := freqRange e;
     instrument := instrument e; points := points e;
     lastUpdateTime := lastUpdateTime e; state := state e |}.

Definition with_state (s : ElementState) (e : LightElement) : LightElement :=
  {| type := type e; x := x e; y := y e; width := width e;
     height := height e; color := color e; brightness := brightness e;
     active := active e; pattern := pattern e; freqRange := freqRange e;
     instrument := instrument e; points := points e;
     lastUpdateTime := lastUpdateTime e; state := s |}.

Definition with_lastUpdateTime (t : Z) (e : LightElement) : LightElement :=
  {| type := type e; x := x e; y := y e; width := width e;
     height := height e; color := color e; brightness := brightness e;
     active := active e; pattern := pattern e; freqRange := freqRange e;
     instrument := instrument e; points := points e;
     lastUpdateTime := t; state := state e |}.

Record HolidayVisualization : Type := {
  elements : list LightElement;
  time : Q;
  lastBeatTime : Z;
  beatCount : nat;
  dominantInstrument : option string;
  colorTransitionSpeed : Q;
  currentHue : number;
  colorScheme : list string
}.

(** [instrumentColors] *)
Definition instrumentColors : list (string * Q) :=
  [ ("piano"%string, 210); ("guitar"%string, 120); ("bass"%string, 330);
    ("drums"%string, 30); ("violin"%string, 60); ("cello"%string, 270);
    ("flute"%string, 180); ("saxophone"%string, 0);
    ("trumpet"%string, 40); ("synthesizer"%string, 300);
    ("voice"%string, 150) ].

Fixpoint lookup (table : list (string * Q)) (key : string) : option Q :=
  match table with
  | [] => None
  | (k, v) :: rest => if String.eqb k key then Some v else lookup rest key
  end.

(** The names every object literal inherits from [Object.prototype]:
    [__proto__] is the prototype object, the others are functions. *)
Definition objectPrototype : list string :=
  [ "constructor"; "hasOwnProperty"; "isPrototypeOf";
    "propertyIsEnumerable"; "toLocaleString"; "toString"; "valueOf";
    "__proto__"; "__defineGetter__"; "__defineSetter__";
    "__lookupGetter__"; "__lookupSetter__" ]%string.

Definition inherited (key : string) : bool :=
  existsb (String.eqb key) objectPrototype.

(** [this.instrumentColors[label] || 0], as the number the arithmetic
    below takes it for.  An own key gives its hue (0 when the hue is 0);
    a name that is not an own key but is inherited gives the inherited
    function or object, which is truthy and as an operand of [-] is
    [NaN]; any other name gives [undefined], hence 0. *)
Definition targetHueOf (label : string) : number :=
  match lookup instrumentColors label with
  | Some v => Num (if Qeq_bool v 0 then 0 else v)
  | None => if inherited label then NaN else Num 0
  end.

(** A string in the test of an [if]: [null] and the empty string are
    false. *)
Definition truthy (s : option string) : bool :=
  match s with
  | Some EmptyString => false
  | Some _ => true
  | None => false
  end.

(** [a === b] on [string | null] / [string | undefined]. *)
Definition same (a b : option string) : bool :=
  match a, b with
  | Some s, Some t => String.eqb s t
  | _, _ => false
  end.

(** *** The hue easing of [updateElements] *)

(** [if (Math.abs(diff) > 180) { if (currentHue < targetHue) currentHue
    += 360; else currentHue -= 360; }] *)
Definition wrapHue (currentHue targetHue : Q) : Q :=
  let diff := targetHue - currentHue in
  if gtb (Math_abs diff) 180 then
    if ltb currentHue targetHue then currentHue + 360 else currentHue - 360
  else currentHue.

(** [currentHue += (targetHue - currentHue) * speed * (1 + intensity)] *)
Definition easeHue (speed currentHue targetHue intensity : Q) : Q :=
  currentHue + (targetHue - currentHue) * speed * (1 + intensity).

(** [((currentHue % 360) + 360) % 360] *)
Definition normalizeHue (h : Q) : Q := rem (rem h 360 + 360) 360.

(** The three statements in sequence.  A hue, a target or an intensity
    that is not finite makes every later value [NaN] (the sum or the
    remainder of a non-finite number is [NaN]). *)
Definition nextHue (speed : Q) (currentHue targetHue intensity : number)
  : number :=
  match currentHue, targetHue, intensity with
  | Num h, Num t, Num i =>
      num (normalizeHue (easeHue speed (wrapHue h t) t i))
  | _, _, _ => NaN
  end.

(** The first block of [updateElements]: nothing changes unless
    [instrumentPrediction] is a non-empty string. *)
Definition updateHue (v : HolidayVisualization) (ad : AudioAnalysisData)
  : HolidayVisualization :=
  let intensity := div_num (averageFrequency ad) 255 in
  if truthy (instrumentPrediction ad) then
    let label :=
      match instrumentPrediction ad with Some s => s | None => EmptyString end in
    {| elements := elements v;
       time := time v;
       lastBeatTime := lastBeatTime v;
       beatCount := beatCount v;
       dominantInstrument := instrumentPrediction ad;
       colorTransitionSpeed := colorTransitionSpeed v;
       currentHue :=
         nextHue (colorTransitionSpeed v) (currentHue v)
           (targetHueOf label) intensity;
       colorScheme := colorScheme v |}
  else v.

(** *** The per-element update *)

(** What one tick reads from the platform: [Date.now()], [Math.sin], and
    the successive results of [Math.random()]. *)
Record Platform : Type := {
  now : Z;
  Math_sin : Q -> Q;
  Math_random : nat -> Q
}.

(** [for (i = minFreq; i <= maxFreq && i < length; i++) { energy +=
    frequencyData[i] / 255; count++; }], [n] iterations left. *)
Fixpoint energyLoop (fd : Uint8Array) (n i : nat) (energy : Q)
    (count : nat) : Q * nat :=
  match n with
  | O => (energy, count)
  | S n' =>
      energyLoop fd n' (S i) (energy + inject_Z (get fd i) / 255) (S count)
  end.

(** The energy of an element: the mean over its band, times 1.5 when the
    element's instrument is the dominant one. *)
Definition bandEnergy (dominant : option string) (fd : Uint8Array)
    (element : LightElement) : Q :=
  let '(minFreq, maxFreq) := freqRange element in
  let '(energy, count) :=
    energyLoop fd (Nat.min (S maxFreq) (length fd) - minFreq) minFreq
      0 0%nat in
  let energy :=
    if (0 <? count)%nat then energy / inject_Z (Z.of_nat count) else 0 in
  if truthy (instrument element) && same dominant (instrument element)
  then energy * 1.5 else energy.

Definition with_position (p : Q) (s : ElementState) : ElementState :=
  {| position := p; strobePhase := strobePhase s;
     fadeLevel := fadeLevel s; colorIndex := colorIndex s;
     wavePosition := wavePosition s |}.

Definition with_strobePhase (p : Q) (s : ElementState) : ElementState :=
  {| position := position s; strobePhase := p;
     fadeLevel := fadeLevel s; colorIndex := colorIndex s;
     wavePosition := wavePosition s |}.

Definition with_fadeLevel (p : Q) (s : ElementState) : ElementState :=
  {| position := position s; strobePhase := strobePhase s;
     fadeLevel := p; colorIndex := colorIndex s;
     wavePosition := wavePosition s |}.

Definition with_colorIndex (p : nat) (s : ElementState) : ElementState :=
  {| position := position s; strobePhase := strobePhase s;
     fadeLevel := fadeLevel s; colorIndex := p;
     wavePosition := wavePosition s |}.

Definition with_wavePosition (p : Q) (s : ElementState) : ElementState :=
  {| position := position s; strobePhase := strobePhase s;
     fadeLevel := fadeLevel s; colorIndex := colorIndex s;
     wavePosition := p |}.

(** [updateElementAnimation]; [draws] counts the calls of
    [Math.random()] made so far in the tick. *)
Definition updateElementAnimation (pf : Platform)
    (v : HolidayVisualization) (element : LightElement) (energy : Q)
    (draws : nat) : LightElement * nat :=
  let '(element, draws) :=
    match pattern element with
    | BLINK =>
        (with_active (gtb (Math_sin pf (time v * 5 * energy)) 0) element,
         draws)
    | CHASE =>
        (with_state
           (with_position
              (rem (position (state element) + energy * 0.1) 1)
              (state element)) element,
         draws)
    | TWINKLE =>
        (if ltb (Math_random pf draws) (energy * 0.2)
         then with_active (negb (active element)) element
         else element,
         S draws)
    | STROBE =>
        let phase :=
          rem (strobePhase (state element) + energy * 0.5) 1 in
        (with_active (ltb phase 0.5)
           (with_state (with_strobePhase phase (state element)) element),
         draws)
    | FADE =>
        let level :=
          Math_sin pf (time v * 2 * energy) * 0.5 + 0.5 in
        (with_brightness (level * energy)
           (with_state (with_fadeLevel level (state element)) element),
         draws)
    | ALTERNATE =>
        (if ltb (Math_random pf draws) (energy * 0.1)
         then
           let index :=
             (S (colorIndex (state element))
              mod length (colorScheme v))%nat in
           with_color (Css (nth index (colorScheme v) EmptyString))
             (with_state (with_colorIndex index (state element)) element)
         else element,
         S draws)
    | WAVE =>
        (match points element with
         | Some pts =>
             if (1 <? length pts)%nat then
               with_state
                 (with_wavePosition (rem (time v * energy) 1)
                    (state element)) element
             else element
         | None => element
         end,
         draws)
    | STATIC => (element, draws)
    end in
  (with_lastUpdateTime (now pf) element, draws).

(** The body of [for (const element of this.elements)]. *)
Definition updateElement (pf : Platform) (v : HolidayVisualization)
    (ad : AudioAnalysisData) (element : LightElement) (draws : nat)
  : LightElement * nat :=
  let energy := bandEnergy (dominantInstrument v) (frequencyData ad) element in
  let element := with_brightness (Math_min 1 (energy * 1.5)) element in
  let element :=
    if gtb energy 0.3 then with_active true element else element in
  let '(element, draws) :=
    updateElementAnimation pf v element energy draws in
  let element :=
    if truthy (dominantInstrument v)
       && same (instrument element) (dominantInstrument v)
    then with_color (Hsl (currentHue v)) element
    else element in
  (element, draws).

Fixpoint updateAll (pf : Platform) (v : HolidayVisualization)
    (ad : AudioAnalysisData) (els : list LightElement) (draws : nat)
  : list LightElement :=
  match els with
  | [] => []
  | element :: rest =>
      let '(element', draws') := updateElement pf v ad element draws in
      element' :: updateAll pf v ad rest draws'
  end.

(** [updateElements]: the hue block, then every element in order. *)
Definition updateElements (pf : Platform) (v : HolidayVisualization)
    (ad : AudioAnalysisData) : HolidayVisualization :=
  let v := updateHue v ad in
  {| elements := updateAll pf v ad (elements v) 0;
     time := time v;
     lastBeatTime := lastBeatTime v;
     beatCount := beatCount v;
     dominantInstrument := dominantInstrument v;
     colorTransitionSpeed := colorTransitionSpeed v;
     currentHue := currentHue v;
     colorScheme := colorScheme v |}.

(** The fields as the class initialises them, around the elements of a
    scene; [colorScheme] is [DEFAULT_COLOR_SCHEMES.COSMIC]. *)
Definition create (els : list LightElement) : HolidayVisualization :=
  {| elements := els;
     time := 0;
     lastBeatTime := 0;
     beatCount := 0;
     dominantInstrument := None;
     colorTransitionSpeed := 0.01;
     currentHue := Num 0;
     colorScheme :=
       [ "#1a237e"; "#283593"; "#303f9f"; "#3949ab";
         "#3f51b5"; "#5c6bc0"; "#7986cb"; "#9fa8da" ]%string |}.

(** The star of [createOrnaments] on a canvas of 800 by 600, created at
    the time [t]. *)
Definition star (t : Z) : LightElement :=
  {| type := STAR; x := 400; y := 60; width := 80; height := 80;
     color := Css "yellow"; brightness := 1; active := true;
     pattern := STROBE; freqRange := (100%nat, 120%nat);
     instrument := Some "synthesizer"%string; points := None;
     lastUpdateTime := t;
     state := {| position := 0; strobePhase := 0; fadeLevel := 0;
                 colorIndex := 0; wavePosition := 0 |} |}.

(** The door of [createDoor] on the same canvas. *)
Definition door (t : Z) : LightElement :=
  {| type := DOOR; x := 352; y := 340; width := 96; height := 120;
     color := Css "green"; brightness := 1; active := true;
     pattern := STATIC; freqRange := (0%nat, 10%nat);
     instrument := Some "bass"%string; points := None;
     lastUpdateTime := t;
     state := {| position := 0; strobePhase := 0; fadeLevel := 0;
                 colorIndex := 0; wavePosition := 0 |} |}.

(** The animation state of an element is in range: the chase position and
    the strobe phase in [[0, 1)], the colour index inside the scheme. *)
Definition stateInRange (v : HolidayVisualization) (el : LightElement)
  : Prop :=
  (0 <= position (state el) /\ position (state el) < 1) /\
  (0 <= strobePhase (state el) /\ strobePhase (state el) < 1) /\
  (colorIndex (state el) < length (colorScheme v))%nat.

(** What [updateElements] never changes in an element. *)
Definition shape (el : LightElement)
  : HolidayElementType * (Q * Q * Q * Q) * AnimationPattern
    * (nat * nat) * option string * option (list (Q * Q)) :=
  (type el, (x el, y el, width el, height el), pattern el, freqRange el,
   instrument el, points el).

End Holiday.

(* ================================================================== *)
(** ** renderer/audio/player.ts *)
(* ================================================================== *)

Module Player.
Import JS.

Record AudioBuffer : Type := { duration : Q }.

(** [AudioData]: [buffer] is not nullable. *)
Record AudioData : Type := {
  buffer : AudioBuffer;
  filePath : string;
  fileName : string
}.

(** An [AudioBufferSourceNode] created by [play]: the offset it was
    started at, and whether [stop()] was called on it. *)
Record SourceNode : Type := {
  offset : Q;
  stopped : bool
}.

(** The player with its audio context: [contextTime] is
    [audioContext.currentTime]; [nodes] holds every source node created so
    far, and a source node is named by its index there. *)
Record AudioPlayer : Type := {
  contextTime : Q;
  nodes : list SourceNode;
  sourceNode : option nat;
  gainNode : option number;
  analyserNode : bool;
  currentBuffer : option AudioBuffer;
  startTime : Q;
  pauseTime : Q;
  isPlaying : bool
}.

(** The constructor: [setupAudioGraph] creates the gain node (gain 1) and
    the analyser node. *)
Definition create : AudioPlayer :=
  {| contextTime := 0; nodes := []; sourceNode := None;
     gainNode := Some (Num 1); analyserNode := true; currentBuffer := None;
     startTime := 0; pauseTime := 0; isPlaying := false |}.

Definition loadAudio (audioData : AudioData) (p : AudioPlayer)
  : AudioPlayer :=
  {| contextTime := contextTime p; nodes := nodes p;
     sourceNode := sourceNode p; gainNode := gainNode p;
     analyserNode := analyserNode p;
     currentBuffer := Some (buffer audioData);
     startTime := startTime p; pauseTime := pauseTime p;
     isPlaying := isPlaying p |}.

(** [node.stop()] on the node named [i]. *)
Fixpoint stopNode (i : nat) (ns : list SourceNode) : list SourceNode :=
  match ns, i with
  | [], _ => []
  | n :: rest, O => {| offset := offset n; stopped := true |} :: rest
  | n :: rest, S i' => n :: stopNode i' rest
  end.

Definition stop (p : AudioPlayer) : AudioPlayer :=
  match sourceNode p with
  | None => p
  | Some i =>
      {| contextTime := contextTime p; nodes := stopNode i (nodes p);
         sourceNode := None; gainNode := gainNode p;
         analyserNode := analyserNode p;
         currentBuffer := currentBuffer p;
         startTime := startTime p; pauseTime := 0;
         isPlaying := false |}
  end.

Definition getCurrentTime (p : AudioPlayer) : Q :=
  if negb (isPlaying p) then pauseTime p
  else contextTime p - startTime p.

Definition play (p : AudioPlayer) : AudioPlayer :=
  match currentBuffer p with
  | None => p
  | Some _ =>
      if negb (analyserNode p) then p
      else
        let p := if isPlaying p then stop p else p in
        let resume := gtb (pauseTime p) 0 in
        let node :=
          {| offset := if resume then pauseTime p else 0;
             stopped := false |} in
        {| contextTime := contextTime p;
           nodes := nodes p ++ [node];
           sourceNode := Some (length (nodes p));
           gainNode := gainNode p;
           analyserNode := analyserNode p;
           currentBuffer := currentBuffer p;
           startTime :=
             if resume then contextTime p - pauseTime p
             else contextTime p;
           pauseTime := pauseTime p;
           isPlaying := true |}
  end.

(** The handler [play] installs as [sourceNode.onended]; it is the same
    closure for every node and does not look at the node that ended. *)
Definition onended (node : nat) (p : AudioPlayer) : AudioPlayer :=
  {| contextTime := contextTime p; nodes := nodes p;
     sourceNode := sourceNode p; gainNode := gainNode p;
     analyserNode := analyserNode p;
     currentBuffer := currentBuffer p;
     startTime := startTime p; pauseTime := 0;
     isPlaying := false |}.

Definition pause (p : AudioPlayer) : AudioPlayer :=
  match sourceNode p with
  | None => p
  | Some i =>
      if negb (isPlaying p) then p
      else
        {| contextTime := contextTime p; nodes := stopNode i (nodes p);
           sourceNode := None; gainNode := gainNode p;
           analyserNode := analyserNode p;
           currentBuffer := currentBuffer p;
           startTime := startTime p; pauseTime := getCurrentTime p;
           isPlaying := false |}
  end.

Definition getDuration (p : AudioPlayer) : Q :=
  match currentBuffer p with
  | Some b => duration b
  | None => 0
  end.

Definition getIsPlaying (p : AudioPlayer) : bool := isPlaying p.

(** [setVolume]: the field [gainNode] holds the value assigned to
    [gainNode.gain.value]. *)
Definition setVolume (volume : number) (p : AudioPlayer) : AudioPlayer :=
  match gainNode p with
  | Some _ =>
      let clampedVolume := max_number (Num 0) (min_number (Num 1) volume) in
      {| contextTime := contextTime p; nodes := nodes p;
         sourceNode := sourceNode p; gainNode := Some clampedVolume;
         analyserNode := analyserNode p;
         currentBuffer := currentBuffer p;
         startTime := startTime p; pauseTime := pauseTime p;
         isPlaying := isPlaying p |}
  | None => p
  end.

Definition with_pauseTime (t : Q) (p : AudioPlayer) : AudioPlayer :=
  {| contextTime := contextTime p; nodes := nodes p;
     sourceNode := sourceNode p; gainNode := gainNode p;
     analyserNode := analyserNode p;
     currentBuffer := currentBuffer p;
     startTime := startTime p; pauseTime := t;
     isPlaying := isPlaying p |}.

(** [seekTo] at a finite [time]. *)
Definition seekTo (time : Q) (p : AudioPlayer) : AudioPlayer :=
  match currentBuffer p with
  | None => p
  | Some b =>
      let clampedTime := Math_max 0 (Math_min (duration b) time) in
      let wasPlaying := isPlaying p in
      let p := if isPlaying p then stop p else p in
      let p := with_pauseTime clampedTime p in
      if wasPlaying then play p else p
  end.

(** [close]: [stop()], then the context is closed. *)
Definition close (p : AudioPlayer) : AudioPlayer := stop p.

(** The audio context's clock moves on by [dt]. *)
Definition advance (dt : Q) (p : AudioPlayer) : AudioPlayer :=
  {| contextTime := contextTime p + dt; nodes := nodes p;
     sourceNode := sourceNode p; gainNode := gainNode p;
     analyserNode := analyserNode p;
     currentBuffer := currentBuffer p;
     startTime := startTime p; pauseTime := pauseTime p;
     isPlaying := isPlaying p |}.

(** What can happen to a player: a call of a public method, the clock
    moving on, or the [ended] event of a node that [play] created. *)
Inductive event : Type :=
| LoadAudio (audioData : AudioData)
| Play
| Pause
| Stop
| SeekTo (time : Q)
| SetVolume (volume : number)
| Close
| Advance (dt : Q)
| Ended (node : nat).

Definition possible (e : event) (p : AudioPlayer) : Prop :=
  match e with
  | Advance dt => 0 <= dt
  | Ended node => (node < length (nodes p))%nat
  | _ => True
  end.

Definition apply (e : event) (p : AudioPlayer) : AudioPlayer :=
  match e with
  | LoadAudio audioData => loadAudio audioData p
  | Play => play p
  | Pause => pause p
  | Stop => stop p
  | SeekTo time => seekTo time p
  | SetVolume volume => setVolume volume p
  | Close => close p
  | Advance dt => advance dt p
  | Ended node => onended node p
  end.

(** The states a player can be in. *)
Inductive reachable : AudioPlayer -> Prop :=
| reach_create : reachable create
| reach_event (e : event) (p : AudioPlayer) :
    reachable p -> possible e p -> reachable (apply e p).

Definition run (es : list event) (p : AudioPlayer) : AudioPlayer :=
  fold_left (fun p e => apply e p) es p.

(** Every event of the run is possible when its turn comes. *)
Fixpoint allPossible (es : list event) (p : AudioPlayer) : Prop :=
  match es with
  | [] => True
  | e :: rest => possible e p /\ allPossible rest (apply e p)
  end.

(** What the transitions preserve. *)
Record invariant (p : AudioPlayer) : Prop := {
  inv_pause : 0 <= pauseTime p;
  inv_analyser : analyserNode p = true;
  inv_gain :
    exists g : number, gainNode p = Some g /\
      (g = NaN \/ exists q : Q, g = Num q /\ 0 <= q <= 1);
  inv_source : isPlaying p = true -> sourceNode p <> None;
  inv_buffer : isPlaying p = true -> currentBuffer p <> None;
  inv_start : isPlaying p = true -> startTime p <= contextTime p
}.

(** A call of a public method or the clock moving on: every event but
    [Ended]. *)
Definition isCall (e : event) : bool :=
  match e with
  | Ended _ => false
  | _ => true
  end.

(** The states reached without any [ended] event. *)
Inductive reachableByCalls : AudioPlayer -> Prop :=
| calls_create : reachableByCalls create
| calls_event (e : event) (p : AudioPlayer) :
    reachableByCalls p -> isCall e = true -> possible e p ->
    reachableByCalls (apply e p).

(** The node in [sourceNode] is the only one that has not been stopped,
    and there is one exactly while the player is playing. *)
Record singleSource (p : AudioPlayer) : Prop := {
  single_playing : isPlaying p = true <-> sourceNode p <> None;
  single_active :
    forall i, sourceNode p = Some i ->
      exists n, nth_error (nodes p) i = Some n /\ stopped n = false;
  single_others :
    forall j n, nth_error (nodes p) j = Some n -> sourceNode p <> Some j ->
      stopped n = true
}.

End Player.

(* ================================================================== *)
(** ** The transport of the [App] component *)
(* ================================================================== *)

Module App.
Import JS.

(** The state and the refs of the component that the transport handlers
    use.  [contextTime] and [nodes] are the audio context's clock and the
    source nodes created so far, as in [Player]. *)
Record App : Type := {
  audioData : option Player.AudioData;
  hasContext : bool;
  contextTime : Q;
  nodes : list Player.SourceNode;
  isPlaying : bool;
  isPaused : bool;
  currentTime : Q;
  sourceNodeRef : option nat;
  startTimeRef : Q;
  pauseTimeRef : Q
}.

(** The handler installed by [handlePlayPause] on the node it creates:
    [if (sourceNodeRef.current === sourceNode) { ... }]. *)
Definition onended (sourceNode : nat) (a : App) : App :=
  if match sourceNodeRef a with
     | Some current => Nat.eqb current sourceNode
     | None => false
     end
  then
    {| audioData := audioData a; hasContext := hasContext a;
       contextTime := contextTime a; nodes := nodes a;
       isPlaying := false; isPaused := false; currentTime := 0;
       sourceNodeRef := sourceNodeRef a;
       startTimeRef := startTimeRef a; pauseTimeRef := 0 |}
  else a.

(** [handlePlayPause], called from the rendered controls: the state its
    closure holds is the current one. *)
Definition handlePlayPause (a : App) : App :=
  match audioData a with
  | None => a
  | Some _ =>
      if negb (hasContext a) then a
      else if isPlaying a then
        match sourceNodeRef a with
        | Some i =>
            {| audioData := audioData a; hasContext := hasContext a;
               contextTime := contextTime a;
               nodes := Player.stopNode i (nodes a);
               isPlaying := false; isPaused := true;
               currentTime := currentTime a;
               sourceNodeRef := None;
               startTimeRef := startTimeRef a;
               pauseTimeRef := contextTime a - startTimeRef a |}
        | None =>
            {| audioData := audioData a; hasContext := hasContext a;
               contextTime := contextTime a; nodes := nodes a;
               isPlaying := false; isPaused := true;
               currentTime := currentTime a;
               sourceNodeRef := None;
               startTimeRef := startTimeRef a;
               pauseTimeRef := pauseTimeRef a |}
        end
      else
        let from := if isPaused a then pauseTimeRef a else currentTime a in
        {| audioData := audioData a; hasContext := hasContext a;
           contextTime := contextTime a;
           nodes :=
             nodes a ++ [ {| Player.offset := from;
                             Player.stopped := false |} ];
           isPlaying := true; isPaused := false;
           currentTime := currentTime a;
           sourceNodeRef := Some (length (nodes a));
           startTimeRef := contextTime a - from;
           pauseTimeRef := pauseTimeRef a |}
  end.

Definition handleStop (a : App) : App :=
  {| audioData := audioData a; hasContext := hasContext a;
     contextTime := contextTime a;
     nodes :=
       match sourceNodeRef a with
       | Some i => Player.stopNode i (nodes a)
       | None => nodes a
       end;
     isPlaying := false; isPaused := false; currentTime := 0;
     sourceNodeRef := None;
     startTimeRef := startTimeRef a; pauseTimeRef := 0 |}.

(** [handleSeek], called from the rendered controls.  [setCurrentTime] is
    queued, the refs change at once, and [handlePlayPause] then runs with
    the state of the same render ([isPlaying] still as [wasPlaying]). *)
Definition handleSeek (time : Q) (a : App) : App :=
  match audioData a with
  | None => a
  | Some _ =>
      let wasPlaying := isPlaying a in
      let a1 :=
        {| audioData := audioData a; hasContext := hasContext a;
           contextTime := contextTime a;
           nodes :=
             match sourceNodeRef a with
             | Some i => Player.stopNode i (nodes a)
             | None => nodes a
             end;
           isPlaying := isPlaying a; isPaused := isPaused a;
           currentTime := currentTime a;
           sourceNodeRef := None;
           startTimeRef := startTimeRef a; pauseTimeRef := time |} in
      let a2 := if wasPlaying then handlePlayPause a1 else a1 in
      {| audioData := audioData a2; hasContext := hasContext a2;
         contextTime := contextTime a2; nodes := nodes a2;
         isPlaying := isPlaying a2; isPaused := isPaused a2;
         currentTime := time;
         sourceNodeRef := sourceNodeRef a2;
         startTimeRef := startTimeRef a2;
         pauseTimeRef := pauseTimeRef a2 |}
  end.

(** The position the controls show while playing:
    [audioContext.currentTime - startTimeRef.current]. *)
Definition playingPosition (a : App) : Q := contextTime a - startTimeRef a.

End App.

(* ================================================================== *)
(** ** The time display of the [AudioControls] component *)
(* ================================================================== *)

Module Controls.
Import JS.

(** The decimal digit [d], for [d] below 10. *)
Definition digit (d : nat) : Ascii.ascii := Ascii.ascii_of_nat (48 + d).

(** The digits of [n], most significant first; [fuel] bounds their
    number. *)
Fixpoint digits (fuel n : nat) (acc : string) : string :=
  match fuel with
  | O => acc
  | S fuel' =>
      let acc := String (digit (n mod 10)) acc in
      if (n <? 10)%nat then acc else digits fuel' (n / 10) acc
  end.

(** [n.toString()] for an integer [n]. *)
Definition toString (n : Z) : string :=
  let m := Z.to_nat (Z.abs n) in
  let body := digits (S m) m EmptyString in
  if (n <? 0)%Z then ("-" ++ body)%string else body.

(** [s.padStart(n, c)] *)
Definition padStart (n : nat) (c : Ascii.ascii) (s : string) : string :=
  (fix pad (k : nat) : string :=
     match k with
     | O => s
     | S k' => String c (pad k')
     end) (n - String.length s)%nat.

(** [formatTime] for a finite time. *)
Definition formatTime (timeInSeconds : Q) : string :=
  let minutes := Math_floor (timeInSeconds / 60) in
  let seconds := Math_floor (rem timeInSeconds 60) in
  (toString minutes ++ ":" ++ padStart 2 (digit 0) (toString seconds))%string.

End Controls.

(* ================================================================== *)
(** ** The [Visualizer] component: switching visualizations *)
(* ================================================================== *)

Module Visualizer.

Inductive VisualizationType : Type :=
| SPECTRUM | WAVEFORM | PARTICLES | COSMIC | PSYCHEDELIC
| SUNBURST | RECTANGULAR | HOLIDAY | HOLIDAY_3D.

Definition is3D (t : VisualizationType) : bool :=
  match t with HOLIDAY_3D => true | _ => false end.

(** The four refs that hold a visualization instance. *)
Inductive slot : Type :=
| sunburstRef | rectangularRef | holidayRef | holiday3DRef.

Definition slot_eqb (a b : slot) : bool :=
  match a, b with
  | sunburstRef, sunburstRef => true
  | rectangularRef, rectangularRef => true
  | holidayRef, holidayRef => true
  | holiday3DRef, holiday3DRef => true
  | _, _ => false
  end.

(** What the component does to its collaborators, in the order it does
    it.  An instance is named by the ref it was created for and the number
    of instances created before it. *)
Inductive action : Type :=
| Construct (s : slot) (instance : nat)
| Destroy (s : slot) (instance : nat)
| Draw (s : slot) (instance : nat)
| Paint (t : VisualizationType)
| RequestFrame (id : nat)
| CancelFrame (id : nat)
| SetTimeout (t : VisualizationType).

(** The props the effect reads. *)
Record Props : Type := {
  audioData : bool;
  isPlaying : bool;
  visualizationType : VisualizationType;
  analyserNode : bool
}.

(** What the page provides: the two canvases once mounted, a 2D context,
    and whether the [Holiday3DVisualization] constructor succeeds. *)
Record Host : Type := {
  canvas2D : bool;
  canvas3D : bool;
  context2D : bool;
  holiday3DConstructs : bool
}.

(** The refs of the component, the animation frames and timeouts that are
    pending (each with the [visualizationType] of the [animate] closure it
    will call), whether the last run of the effect returned its cleanup
    function, and the actions so far. *)
Record Component : Type := {
  sunburst : option nat;
  rectangular : option nat;
  holiday : option nat;
  holiday3D : option nat;
  rafIdRef : option nat;
  frames : list (nat * VisualizationType);
  timeouts : list VisualizationType;
  nextFrame : nat;
  created : nat;
  hasCleanup : bool;
  log : list action
}.

Definition mounted : Component :=
  {| sunburst := None; rectangular := None; holiday := None;
     holiday3D := None; rafIdRef := None; frames := []; timeouts := [];
     nextFrame := 1; created := 0; hasCleanup := false;
     log := [] |}.

Definition ref (s : slot) (c : Component) : option nat :=
  match s with
  | sunburstRef => sunburst c
  | rectangularRef => rectangular c
  | holidayRef => holiday c
  | holiday3DRef => holiday3D c
  end.

Definition set_ref (s : slot) (v : option nat) (c : Component)
  : Component :=
  {| sunburst := if slot_eqb s sunburstRef then v else sunburst c;
     rectangular := if slot_eqb s rectangularRef then v else rectangular c;
     holiday := if slot_eqb s holidayRef then v else holiday c;
     holiday3D := if slot_eqb s holiday3DRef then v else holiday3D c;
     rafIdRef := rafIdRef c; frames := frames c; timeouts := timeouts c;
     nextFrame := nextFrame c; created := created c;
     hasCleanup := hasCleanup c; log := log c |}.

Definition emit (a : action) (c : Component) : Component :=
  {| sunburst := sunburst c; rectangular := rectangular c;
     holiday := holiday c; holiday3D := holiday3D c;
     rafIdRef := rafIdRef c; frames := frames c; timeouts := timeouts c;
     nextFrame := nextFrame c; created := created c;
     hasCleanup := hasCleanup c;
     log := log c ++ [a] |}.

(** [if (ref.current) { ref.current.destroy(); ref.current = null; }] *)
Definition destroyRef (s : slot) (c : Component) : Component :=
  match ref s c with
  | Some i => set_ref s None (emit (Destroy s i) c)
  | None => c
  end.

(** [if (!ref.current) ref.current = new ...(canvas)] *)
Definition ensure (s : slot) (c : Component) : Component :=
  match ref s c with
  | Some _ => c
  | None =>
      let c := emit (Construct s (created c)) c in
      let c := set_ref s (Some (created c)) c in
      {| sunburst := sunburst c; rectangular := rectangular c;
         holiday := holiday c; holiday3D := holiday3D c;
         rafIdRef := rafIdRef c; frames := frames c;
         timeouts := timeouts c; nextFrame := nextFrame c;
         created := S (created c); hasCleanup := hasCleanup c; log := log c |}
  end.

(** [ref.current.draw(analysisData)] *)
Definition drawRef (s : slot) (c : Component) : Component :=
  match ref s c with
  | Some i => emit (Draw s i) c
  | None => c
  end.

(** [drawSunburst], [drawRectangular], [drawHoliday]. *)
Definition drawPersistent (s : slot) (c : Component) : Component :=
  drawRef s (ensure s c).

(** [drawHoliday3D]: a constructor that throws is caught and the
    function returns. *)
Definition drawHoliday3D (h : Host) (c : Component) : Component :=
  match holiday3D c with
  | None =>
      if holiday3DConstructs h then drawRef holiday3DRef (ensure holiday3DRef c)
      else c
  | Some _ => drawRef holiday3DRef c
  end.

(** [if (rafIdRef.current) { cancelAnimationFrame(rafIdRef.current);
    rafIdRef.current = null; }] *)
Definition cancelFrame (c : Component) : Component :=
  match rafIdRef c with
  | Some id =>
      {| sunburst := sunburst c; rectangular := rectangular c;
         holiday := holiday c; holiday3D := holiday3D c;
         rafIdRef := None;
         frames := filter (fun f => negb (Nat.eqb (fst f) id)) (frames c);
         timeouts := timeouts c; nextFrame := nextFrame c;
         created := created c; hasCleanup := hasCleanup c;
         log := log c ++ [CancelFrame id] |}
  | None => c
  end.

(** [rafIdRef.current = requestAnimationFrame(animate)] *)
Definition requestFrame (t : VisualizationType) (c : Component)
  : Component :=
  {| sunburst := sunburst c; rectangular := rectangular c;
     holiday := holiday c; holiday3D := holiday3D c;
     rafIdRef := Some (nextFrame c);
     frames := frames c ++ [(nextFrame c, t)];
     timeouts := timeouts c; nextFrame := S (nextFrame c);
     created := created c; hasCleanup := hasCleanup c;
     log := log c ++ [RequestFrame (nextFrame c)] |}.

(** The [animate] closure that [startVisualization] builds for the type
    [t] (with a 2D context at hand when [t] is not the 3D type). *)
Definition animate (h : Host) (t : VisualizationType) (c : Component)
  : Component :=
  let c := requestFrame t c in
  match t with
  | HOLIDAY_3D => if canvas3D h then drawHoliday3D h c else c
  | SUNBURST => drawPersistent sunburstRef c
  | RECTANGULAR => drawPersistent rectangularRef c
  | HOLIDAY => drawPersistent holidayRef c
  | _ => emit (Paint t) c
  end.

Definition startVisualization (h : Host) (p : Props) (c : Component)
  : Component :=
  let t := visualizationType p in
  let canvas := if is3D t then canvas3D h else canvas2D h in
  if negb canvas || negb (analyserNode p) then c
  else if negb (is3D t) && negb (context2D h) then c
  else if is3D t then
    {| sunburst := sunburst c; rectangular := rectangular c;
       holiday := holiday c; holiday3D := holiday3D c;
       rafIdRef := rafIdRef c; frames := frames c;
       timeouts := timeouts c ++ [t]; nextFrame := nextFrame c;
       created := created c; hasCleanup := hasCleanup c;
       log := log c ++ [SetTimeout t] |}
  else animate h t c.

Definition setCleanup (b : bool) (c : Component) : Component :=
  {| sunburst := sunburst c; rectangular := rectangular c;
     holiday := holiday c; holiday3D := holiday3D c;
     rafIdRef := rafIdRef c; frames := frames c; timeouts := timeouts c;
     nextFrame := nextFrame c; created := created c;
     hasCleanup := b; log := log c |}.

(** The body of the effect with the dependencies
    [audioData, isPlaying, visualizationType].  The early [return] returns
    no cleanup function; the end of the body returns one. *)
Definition effect (h : Host) (p : Props) (c : Component) : Component :=
  if negb (audioData p) || negb (analyserNode p) then setCleanup false c
  else
    let c :=
      if is3D (visualizationType p) then
        destroyRef holidayRef
          (destroyRef rectangularRef (destroyRef sunburstRef c))
      else destroyRef holiday3DRef c in
    let c :=
      if isPlaying p then startVisualization h p c
      else cancelFrame c in
    setCleanup true c.

(** The function the effect returns, when the last run returned it. *)
Definition cleanup (c : Component) : Component :=
  if hasCleanup c then cancelFrame c else c.

(** The frame that function cancels: the one recorded in [rafIdRef]. *)
Definition cancelledFrame (c : Component) : option nat :=
  if hasCleanup c then rafIdRef c else None.

(** A render with a changed dependency: the previous effect is cleaned
    up, then the effect runs with the new props. *)
Definition rerender (h : Host) (p : Props) (c : Component) : Component :=
  effect h p (cleanup c).

(** Unmount: the cleanup of the effect above, then that of the effect
    with no dependencies. *)
Definition unmount (c : Component) : Component :=
  let c := cleanup c in
  destroyRef holiday3DRef
    (destroyRef holidayRef
       (destroyRef rectangularRef (destroyRef sunburstRef c))).

(** A pending animation frame is presented. *)
Definition frameFires (h : Host) (id : nat) (c : Component) : Component :=
  match find (fun f => Nat.eqb (fst f) id) (frames c) with
  | Some (_, t) =>
      animate h t
        {| sunburst := sunburst c; rectangular := rectangular c;
           holiday := holiday c; holiday3D := holiday3D c;
           rafIdRef := rafIdRef c;
           frames :=
             filter (fun f => negb (Nat.eqb (fst f) id)) (frames c);
           timeouts := timeouts c; nextFrame := nextFrame c;
           created := created c; hasCleanup := hasCleanup c; log := log c |}
  | None => c
  end.

(** The oldest pending timeout expires: [setTimeout(() => animate(), 100)]. *)
Definition timeoutFires (h : Host) (c : Component) : Component :=
  match timeouts c with
  | t :: rest =>
      animate h t
        {| sunburst := sunburst c; rectangular := rectangular c;
           holiday := holiday c; holiday3D := holiday3D c;
           rafIdRef := rafIdRef c; frames := frames c;
           timeouts := rest; nextFrame := nextFrame c;
           created := created c; hasCleanup := hasCleanup c; log := log c |}
  | [] => c
  end.


Fixpoint destroysOf (c : Component) (slots : list slot) : list action :=
  match slots with
  | [] => []
  | s :: rest =>
      match ref s c with
      | Some i => Destroy s i :: destroysOf c rest
      | None => destroysOf c rest
      end
  end.

Definition isDestroy (a : action) : bool :=
  match a with Destroy _ _ => true | _ => false end.

Definition isCancel (a : action) : bool :=
  match a with CancelFrame _ => true | _ => false end.

Definition action_eqb (a b : action) : bool :=
  match a, b with
  | Destroy s i, Destroy s' i' => slot_eqb s s' && Nat.eqb i i'
  | Draw s i, Draw s' i' => slot_eqb s s' && Nat.eqb i i'
  | Construct s i, Construct s' i' => slot_eqb s s' && Nat.eqb i i'
  | _, _ => false
  end.

Definition notDestroy (a : action) : bool := negb (isDestroy a).

(** [c'] continues [c] without destroying anything. *)
Definition quiet (c c' : Component) : Prop :=
  exists post : list action,
    log c' = log c ++ post /\ forallb notDestroy post = true.



(** How often [a] occurs in a list of actions. *)
Definition occurrences (a : action) (l : list action) : nat :=
  length (filter (action_eqb a) l).

(** The component after any number of renders, frames, timeouts, and an
    unmount. *)
Inductive reachable : Component -> Prop :=
| reach_mounted : reachable mounted
| reach_rerender (h : Host) (p : Props) (c : Component) :
    reachable c -> reachable (rerender h p c)
| reach_frame (h : Host) (id : nat) (c : Component) :
    reachable c -> reachable (frameFires h id c)
| reach_timeout (h : Host) (c : Component) :
    reachable c -> reachable (timeoutFires h c)
| reach_unmount (c : Component) :
    reachable c -> reachable (unmount c).

(** The action [a] constructs, draws or destroys the instance [i] of the
    ref [s]. *)
Definition touches (s : slot) (i : nat) (a : action) : bool :=
  match a with
  | Construct s' i' | Destroy s' i' | Draw s' i' =>
      slot_eqb s s' && Nat.eqb i i'
  | _ => false
  end.

(** No instance is touched after it has been destroyed. *)
Fixpoint nothingAfterDestroy (l : list action) : Prop :=
  match l with
  | [] => True
  | a :: rest =>
      match a with
      | Destroy s i => forall b, In b rest -> touches s i b = false
      | _ => True
      end /\ nothingAfterDestroy rest
  end.

(** Every instance that is drawn or destroyed has been constructed
    before. *)
Fixpoint constructedFirst (seen : list action) (l : list action) : Prop :=
  match l with
  | [] => True
  | a :: rest =>
      match a with
      | Draw s i | Destroy s i => In (Construct s i) seen
      | _ => True
      end /\ constructedFirst (seen ++ [a]) rest
  end.

(** What the component keeps true of its refs and its actions. *)
Record lifecycle (c : Component) : Prop := {
  life_order : nothingAfterDestroy (log c);
  life_constructed : constructedFirst [] (log c);
  life_ids :
    forall s i a, In a (log c) -> touches s i a = true ->
      (i < created c)%nat;
  life_refs :
    forall s i, ref s c = Some i ->
      (i < created c)%nat /\ In (Construct s i) (log c)
      /\ ~ In (Destroy s i) (log c)
}.

End Visualizer.

(* ================================================================== *)
(** ** The words of the specification, and sample inputs *)
(* ================================================================== *)

Module Spec.
Import JS.

(** The arithmetic mean of the magnitudes of a non-empty array. *)
Definition mean (fd : Uint8Array) : Q :=
  inject_Z (fold_right Z.add 0%Z (map val fd))
  / inject_Z (Z.of_nat (length fd)).

(** [[50, 50, 255, 50, ...]]: a spike at index 2, [more + 1] further bins
    at 50. *)
Definition spike (more : nat) : Uint8Array :=
  u8 50 :: u8 50 :: u8 255 :: repeat (u8 50) (S more).

(** A flat spectrum at 0. *)
Definition silent (fd : Uint8Array) : Prop :=
  Forall (fun b => val b = 0%Z) fd.

(** An analysis frame for the magnitudes [fd] and the label [prediction],
    with [averageFrequency] and [peaks] computed as [animate] and
    [getAnalysisData] compute them (the other two arrays play no part and
    are left at 0). *)
Definition frame (fd : Uint8Array) (prediction : option string)
  : Analyzer.AudioAnalysisData :=
  {| Analyzer.frequencyData := fd;
     Analyzer.waveformData := repeat x00 (length fd);
     Analyzer.timeDomainData := repeat x00 (length fd);
     Analyzer.averageFrequency :=
       div (inject_Z (Analyzer.sumLoop fd))
         (inject_Z (Z.of_nat (length fd)));
     Analyzer.peaks := Analyzer.detectPeaks fd;
     Analyzer.bpm := None;
     Analyzer.instrumentPrediction := prediction |}.


(** A platform for the examples, with the clock at [t].  The patterns of
    the examples (STATIC, STROBE) call neither [Math.sin] nor
    [Math.random]. *)
Definition platformAt (t : Z) : Holiday.Platform :=
  {| Holiday.now := t;
     Holiday.Math_sin := fun _ => 0;
     Holiday.Math_random := fun _ => 0 |}.

(** Every one of 128 bins at 255, no label. *)
Definition loud : Analyzer.AudioAnalysisData :=
  frame (repeat (u8 255) 128) None.

(** A file of three minutes. *)
Definition song : Player.AudioData :=
  {| Player.buffer := {| Player.duration := 180 |};
     Player.filePath := "/music/song.wav";
     Player.fileName := "song.wav" |}.

(** The props of a render while a file is playing. *)
Definition playing (t : Visualizer.VisualizationType) : Visualizer.Props :=
  {| Visualizer.audioData := true;
     Visualizer.isPlaying := true;
     Visualizer.visualizationType := t;
     Visualizer.analyserNode := true |}.

(** A page with both canvases mounted and working contexts. *)
Definition page : Visualizer.Host :=
  {| Visualizer.canvas2D := true;
     Visualizer.canvas3D := true;
     Visualizer.context2D := true;
     Visualizer.holiday3DConstructs := true |}.


(** The patterns whose rule does not assign [active]. *)
Definition leavesActive (p : Holiday.AnimationPattern) : bool :=
  match p with
  | Holiday.BLINK | Holiday.TWINKLE | Holiday.STROBE => false
  | _ => true
  end.

(** [v] clamped into [[0, 1]]. *)
Definition clamp01 (v : Q) : Q :=
  if Qlt_le_dec v 0 then 0 else if Qlt_le_dec 1 v then 1 else v.


End Spec.

(* ================================================================== *)
(** * Properties *)
(* ================================================================== *)

Module JSFacts.
Import JS.

Lemma val_range (b : byte) : (0 <= val b <= 255)%Z.
Proof.
  unfold val. pose proof (Byte.to_N_bounded b). lia.
Qed.

Lemma ltb_true (a b : Q) : ltb a b = true <-> a < b.
Proof.
  unfold ltb. destruct (Qlt_le_dec a b); split; intros; try easy.
  lra.
Qed.

Lemma ltb_false (a b : Q) : ltb a b = false <-> b <= a.
Proof.
  unfold ltb. destruct (Qlt_le_dec a b); split; intros; try easy.
  lra.
Qed.

Lemma num_eq (p q : Q) : p == q -> num p = num q.
Proof.
  intros H. unfold num. f_equal. now apply Qred_complete.
Qed.

Lemma div_finite (a b : Q) : ~ b == 0 -> div a b = num (a / b).
Proof.
  intros H. unfold div.
  destruct (Qeq_bool b 0) eqn:E; [|reflexivity].
  apply Qeq_bool_eq in E. contradiction.
Qed.

End JSFacts.

Module AnalyzerFacts.
Import JS Analyzer Spec JSFacts.

(** The loop appends, in index order, the indices that pass the test. *)
Lemma peaksLoop_filter (fd : Uint8Array) (n i : nat) (acc : list nat) :
  peaksLoop fd n i acc = acc ++ filter (isPeak fd) (seq i n).
Proof.
  revert i acc. induction n as [|n IH]; intros i acc; simpl.
  - now rewrite app_nil_r.
  - rewrite IH. destruct (isPeak fd i); [|reflexivity].
    now rewrite <- app_assoc.
Qed.

Lemma detectPeaks_filter (fd : Uint8Array) :
  detectPeaks fd = filter (isPeak fd) (seq 1 (length fd - 2)).
Proof.
  unfold detectPeaks. now rewrite peaksLoop_filter.
Qed.

Lemma isPeak_spec (fd : Uint8Array) (i : nat) :
  isPeak fd i = true <->
  (get fd i > get fd (i - 1) /\ get fd i > get fd (i + 1)
   /\ get fd i > 200)%Z.
Proof.
  unfold isPeak. rewrite !andb_true_iff, !Z.ltb_lt. lia.
Qed.

Lemma seq_sorted (n i : nat) : StronglySorted lt (seq i n).
Proof.
  revert i. induction n as [|n IH]; intros i; simpl; constructor.
  - apply IH.
  - apply Forall_forall. intros j Hj. apply in_seq in Hj. lia.
Qed.

Lemma filter_sorted (f : nat -> bool) (l : list nat) :
  StronglySorted lt l -> StronglySorted lt (filter f l).
Proof.
  induction 1 as [|a l Hs IH Ha]; simpl; [constructor|].
  destruct (f a); [|exact IH].
  constructor; [exact IH|].
  apply Forall_forall. intros j Hj. apply filter_In in Hj.
  rewrite Forall_forall in Ha. now apply Ha.
Qed.

Lemma get_repeat_50 (m i : nat) :
  (val (nth i (repeat (u8 50) m) x00) <= 50)%Z.
Proof.
  revert i. induction m as [|m IH]; intros [|i]; simpl;
    solve [discriminate | apply IH].
Qed.

Lemma spike_tail_quiet (more i : nat) :
  (3 <= i)%nat -> isPeak (spike more) i = false.
Proof.
  intros Hi. unfold isPeak.
  replace (200 <? get (spike more) i)%Z with false;
    [now rewrite andb_false_r|].
  symmetry. apply Z.ltb_ge.
  do 3 (destruct i as [|i]; [lia|]).
  unfold get, spike. cbn [nth].
  pose proof (get_repeat_50 (S more) i). lia.
Qed.

Lemma filter_none {A} (f : A -> bool) (l : list A) :
  (forall a, In a l -> f a = false) -> filter f l = [].
Proof.
  induction l as [|a l IH]; intros H; simpl; [reflexivity|].
  rewrite (H a (or_introl eq_refl)). apply IH.
  intros b Hb. apply H. now right.
Qed.

Lemma detectPeaks_spike (more : nat) : detectPeaks (spike more) = [2%nat].
Proof.
  rewrite detectPeaks_filter.
  replace (length (spike more) - 2)%nat with (S (S more)).
  2:{ unfold spike. cbn [length]. rewrite repeat_length. lia. }
  cbn [seq filter].
  replace (isPeak (spike more) 1) with false by reflexivity.
  replace (isPeak (spike more) 2) with true by reflexivity.
  f_equal. apply filter_none. intros i Hi. apply in_seq in Hi.
  apply spike_tail_quiet. lia.
Qed.

Lemma getAnalysisData_peaks
    (a : AudioAnalyzer) (fd td : Uint8Array) (ad : AudioAnalysisData) :
  getAnalysisData a fd td = Some ad -> peaks ad = detectPeaks fd.
Proof.
  unfold getAnalysisData.
  destruct (negb (analyserNode a) || negb (hasFrequencyData a)
            || negb (hasTimeDomainData a)); [discriminate|].
  now intros [= <-].
Qed.

Lemma In_detectPeaks (fd : Uint8Array) (i : nat) :
  In i (detectPeaks fd) <->
  (1 <= i /\ i + 2 <= length fd)%nat /\
  (get fd i > get fd (i - 1))%Z /\
  (get fd i > get fd (i + 1))%Z /\
  (get fd i > 200)%Z.
Proof.
  rewrite detectPeaks_filter, filter_In, in_seq, isPeak_spec. lia.
Qed.

(** C2.  The [peaks] of an analysis frame are exactly the interior
    indices [i] (from 1 to [length - 2]) at which the magnitude is above
    both neighbours and above 200, in ascending order; for the array
    [[50, 50, 255, 50, ...]] they are [[2]]. *)
Theorem peaks_are_interior_maxima_above_200
    (a : AudioAnalyzer) (fd td : Uint8Array) (ad : AudioAnalysisData)
    (Hframe : getAnalysisData a fd td = Some ad) :
  (forall i : nat,
      In i (peaks ad) <->
      (1 <= i /\ i + 2 <= length fd)%nat /\
      (get fd i > get fd (i - 1))%Z /\
      (get fd i > get fd (i + 1))%Z /\
      (get fd i > 200)%Z) /\
  StronglySorted lt (peaks ad) /\
  (forall more : nat, fd = spike more -> peaks ad = [2%nat]).
Proof.
  rewrite (getAnalysisData_peaks a fd td ad Hframe).
  split; [|split].
  - intros i. apply In_detectPeaks.
  - rewrite detectPeaks_filter. apply filter_sorted, seq_sorted.
  - intros more ->. apply detectPeaks_spike.
Qed.

Lemma peaks_are_interior_maxima_above_200_witness :
  exists ad : AudioAnalysisData,
    getAnalysisData ready (spike 2) [] = Some ad /\ peaks ad = [2%nat].
Proof.
  eexists. split; [reflexivity|].
  exact (proj2 (proj2 (peaks_are_interior_maxima_above_200
                         ready (spike 2) [] _ eq_refl)) 2%nat eq_refl).
Defined.

(** The loop adds up the magnitudes. *)
Lemma sumLoop_from (fd : Uint8Array) (acc : Z) :
  fold_left (fun sum b => (sum + val b)%Z) fd acc
  = (acc + fold_right Z.add 0%Z (map val fd))%Z.
Proof.
  revert acc. induction fd as [|b fd IH]; intros acc; simpl; [lia|].
  rewrite IH. lia.
Qed.

Lemma sumLoop_sum (fd : Uint8Array) :
  sumLoop fd = fold_right Z.add 0%Z (map val fd).
Proof.
  unfold sumLoop. now rewrite sumLoop_from.
Qed.

Lemma sum_range (fd : Uint8Array) :
  (0 <= fold_right Z.add 0%Z (map val fd)
   <= 255 * Z.of_nat (length fd))%Z.
Proof.
  induction fd as [|b fd IH]; simpl length; simpl fold_right; [lia|].
  pose proof (val_range b). lia.
Qed.

Lemma mean_range (fd : Uint8Array) : fd <> [] -> 0 <= mean fd <= 255.
Proof.
  intros Hne. unfold mean.
  pose proof (sum_range fd) as [Hlo Hhi].
  assert (Hn : 0 < inject_Z (Z.of_nat (length fd))).
  { destruct fd; [contradiction|]. rewrite <- (Zlt_Qlt 0).
    simpl length. lia. }
  split.
  - apply Qle_shift_div_l; [exact Hn|]. rewrite Qmult_0_l.
    now rewrite <- (Zle_Qle 0).
  - apply Qle_shift_div_r; [exact Hn|].
    rewrite <- (inject_Z_mult 255). now rewrite <- Zle_Qle.
Qed.

(** C8, as amended.  For a non-empty array the frame's [averageFrequency]
    is the arithmetic mean of the magnitudes, between 0 and 255; the
    intensity the renderers derive from it, [averageFrequency / 255], is
    that mean over 255 and lies in [[0, 1]]. *)
Theorem averageFrequency_is_the_mean
    (a : AudioAnalyzer) (fd td : Uint8Array) (ad : AudioAnalysisData)
    (Hframe : getAnalysisData a fd td = Some ad)
    (Hne : fd <> []) :
  averageFrequency ad = num (mean fd) /\
  0 <= mean fd <= 255 /\
  div_num (averageFrequency ad) 255 = num (mean fd / 255) /\
  0 <= mean fd / 255 <= 1.
Proof.
  unfold getAnalysisData in Hframe.
  destruct (negb (analyserNode a) || negb (hasFrequencyData a)
            || negb (hasTimeDomainData a)); [discriminate|].
  injection Hframe as <-. cbn [averageFrequency].
  pose proof (mean_range fd Hne) as Hm.
  assert (Havg : div (inject_Z (sumLoop fd))
                   (inject_Z (Z.of_nat (length fd))) = num (mean fd)).
  { rewrite sumLoop_sum. apply div_finite.
    destruct fd; [contradiction|]. simpl length.
    assert (0 < inject_Z (Z.of_nat (S (length fd))))
      by (rewrite <- (Zlt_Qlt 0); lia).
    lra. }
  rewrite Havg. repeat split; try apply Hm.
  - unfold div_num, num. rewrite div_finite by (intros H; discriminate H).
    apply num_eq. now rewrite Qred_correct.
  - apply Qle_shift_div_l; [reflexivity|]. lra.
  - apply Qle_shift_div_r; [reflexivity|]. lra.
Qed.

Lemma averageFrequency_is_the_mean_witness :
  exists ad : AudioAnalysisData,
    getAnalysisData ready [u8 100; u8 200] [] = Some ad /\
    [u8 100; u8 200] <> [] /\
    averageFrequency ad = Num 150.
Proof.
  eexists. split; [reflexivity|]. split; [discriminate|].
  exact (proj1 (averageFrequency_is_the_mean
                  ready [u8 100; u8 200] [] _ eq_refl
                  ltac:(discriminate))).
Defined.

(** C8, as stated, fails: for the one-bin array [[255]] the field is 255,
    not the mean over 255 (which is 1), and it is outside [[0, 1]]; for
    the empty array it is [NaN]. *)
Lemma averageFrequency_not_normalized :
  (exists ad : AudioAnalysisData,
      getAnalysisData ready [u8 255] [] = Some ad /\
      averageFrequency ad = Num 255 /\
      averageFrequency ad <> num (mean [u8 255] / 255) /\
      ~ (exists q : Q, averageFrequency ad = Num q /\ 0 <= q <= 1)) /\
  (exists ad : AudioAnalysisData,
      getAnalysisData ready [] [] = Some ad /\
      averageFrequency ad = NaN).
Proof.
  split.
  - eexists. split; [reflexivity|]. split; [reflexivity|].
    split; [discriminate|].
    intros [q [Hq Hr]]. injection Hq as <-. lra.
  - eexists. split; reflexivity.
Qed.

End AnalyzerFacts.

Module BassFacts.
Import JS Analyzer Rectangular Spec JSFacts.

Lemma silent_get (fd : Uint8Array) (i : nat) : silent fd -> get fd i = 0%Z.
Proof.
  intros H. unfold get. revert i.
  induction H as [|b fd Hb _ IH]; intros [|i]; simpl; auto.
Qed.

(** Inside the loop the weight of a bin is at least 0.3. *)
Lemma frequencyWeight_lower (bassRange : Z) (i : nat) :
  (Z.of_nat i < bassRange)%Z ->
  0.3 <= 1 - (inject_Z (Z.of_nat i) / inject_Z bassRange) * 0.7.
Proof.
  intros Hi.
  assert (Hb : 0 < inject_Z bassRange) by (rewrite <- (Zlt_Qlt 0); lia).
  assert (Hq : inject_Z (Z.of_nat i) / inject_Z bassRange <= 1).
  { apply Qle_shift_div_r; [exact Hb|]. rewrite Qmult_1_l.
    rewrite <- Zle_Qle. lia. }
  lra.
Qed.

(** On a silent array the loop leaves the energy at 0 and adds at least
    0.3 to the weight with every bin. *)
Lemma bassLoop_silent (fd : Uint8Array) (bassRange : Z) (n i : nat)
    (energy weight : Q) :
  silent fd ->
  (Z.of_nat (i + n) <= bassRange)%Z ->
  energy == 0 ->
  let '(e, w) := bassLoop fd (inject_Z bassRange) n i energy weight in
  e == 0 /\ weight + 0.3 * inject_Z (Z.of_nat n) <= w.
Proof.
  intros Hs. revert i energy weight.
  induction n as [|n IH]; intros i energy weight Hi He.
  - cbn [bassLoop]. split; [exact He|].
    change (inject_Z (Z.of_nat 0)) with 0. lra.
  - cbn [bassLoop].
    pose proof (frequencyWeight_lower bassRange i ltac:(lia)) as Hw.
    set (fw := 1 - inject_Z (Z.of_nat i) / inject_Z bassRange * 0.7) in *.
    specialize (IH (S i)
                  (energy + inject_Z (get fd i) / 255 * fw) (weight + fw)
                  ltac:(lia)).
    rewrite (silent_get fd i Hs) in *.
    destruct (bassLoop fd (inject_Z bassRange) n (S i)
                (energy + inject_Z 0 / 255 * fw) (weight + fw)) as [e w].
    destruct IH as [IHe IHw].
    { rewrite He. change (inject_Z 0) with 0. field. }
    split; [exact IHe|].
    rewrite Nat2Z.inj_succ. unfold Z.succ. rewrite inject_Z_plus.
    change (inject_Z 1) with 1. lra.
Qed.

Lemma bassRange_positive (fd : Uint8Array) :
  (10 <= length fd)%nat -> (1 <= bassRangeOf fd)%Z.
Proof.
  intros H. unfold bassRangeOf, Math_floor.
  assert (H10 : inject_Z 10 <= inject_Z (Z.of_nat (length fd)))
    by (rewrite <- Zle_Qle; lia).
  change (inject_Z 10) with 10 in H10.
  apply (Qfloor_resp_le 1). lra.
Qed.

Section WithMath.
Variable Math_pow : number -> Q -> number.
Hypothesis Math_pow_laws : pow_laws Math_pow.

(** C1, as amended.  For a silent array of at least 10 bins
    [getBassEnergy] is 0, and the peaks of a silent array of any length
    are empty.  (The division by the sum of the weights is not guarded;
    the sum is positive from 10 bins on.) *)
Theorem silence_has_no_bass_and_no_peaks (fd : Uint8Array)
    (Hsilent : silent fd) :
  ((10 <= length fd)%nat -> getBassEnergy Math_pow fd = Num 0) /\
  forall (a : AudioAnalyzer) (td : Uint8Array) (ad : AudioAnalysisData),
    getAnalysisData a fd td = Some ad -> peaks ad = [].
Proof.
  split.
  - intros Hlen. unfold getBassEnergy, normalizedEnergy.
    pose proof (bassRange_positive fd Hlen) as Hb.
    pose proof (bassLoop_silent fd (bassRangeOf fd)
                  (Z.to_nat (bassRangeOf fd)) 0 0 0 Hsilent
                  ltac:(lia) ltac:(reflexivity)) as Hloop.
    destruct (bassLoop fd (inject_Z (bassRangeOf fd))
                (Z.to_nat (bassRangeOf fd)) 0 0 0) as [e w].
    destruct Hloop as [He Hw].
    assert (Hn : 1 <= inject_Z (Z.of_nat (Z.to_nat (bassRangeOf fd)))).
    { change 1 with (inject_Z 1). rewrite <- Zle_Qle. lia. }
    rewrite div_finite by lra.
    replace (num (e / w)) with (Num 0).
    + apply (proj2 Math_pow_laws). reflexivity.
    + symmetry. apply (num_eq (e / w) 0). rewrite He.
      field. lra.
  - intros a td ad Hframe.
    rewrite (AnalyzerFacts.getAnalysisData_peaks a fd td ad Hframe).
    destruct (detectPeaks fd) as [|i rest] eqn:E; [reflexivity|].
    exfalso.
    assert (Hin : In i (detectPeaks fd)) by (rewrite E; now left).
    apply AnalyzerFacts.In_detectPeaks in Hin.
    destruct Hin as (_ & _ & _ & H200).
    rewrite (silent_get fd i Hsilent) in H200. lia.
Qed.
End WithMath.

Lemma pow_int_laws : pow_laws pow_int.
Proof.
  split; intros y Hy; unfold pow_int.
  - destruct (Qeq_bool y 0) eqn:E; [|reflexivity].
    apply Qeq_bool_eq in E. contradiction.
  - destruct (Qeq_bool y 0) eqn:E.
    + apply Qeq_bool_eq in E. lra.
    + destruct (Qlt_le_dec 0 y); [|lra].
      reflexivity.
Qed.
Lemma silence_has_no_bass_and_no_peaks_witness :
  pow_laws pow_int /\
  (silent (repeat x00 10) /\ (10 <= length (repeat x00 10))%nat /\
   getBassEnergy pow_int (repeat x00 10) = Num 0) /\
  (silent (repeat x00 3) /\
   exists ad : AudioAnalysisData,
     getAnalysisData ready (repeat x00 3) [] = Some ad /\ peaks ad = []).
Proof.
  split; [exact pow_int_laws|].
  assert (Hs : silent (repeat x00 10)) by (repeat constructor).
  assert (Hs3 : silent (repeat x00 3)) by (repeat constructor).
  split.
  - split; [exact Hs|]. split; [apply le_n|].
    exact (proj1 (silence_has_no_bass_and_no_peaks pow_int pow_int_laws
                    (repeat x00 10) Hs) (le_n 10)).
  - split; [exact Hs3|]. eexists. split; [reflexivity|].
    exact (proj2 (silence_has_no_bass_and_no_peaks pow_int pow_int_laws
                    (repeat x00 3) Hs3) ready [] _ eq_refl).
Defined.

(** C1, as stated, fails: the division is not guarded.  For a silent
    array of 9 bins the loop does not run, the sum of the weights is 0,
    and [getBassEnergy] is [NaN]. *)
Lemma short_silence_bass_is_NaN :
  pow_laws pow_int /\ silent (repeat x00 9) /\
  normalizedEnergy (repeat x00 9) = NaN /\
  getBassEnergy pow_int (repeat x00 9) = NaN.
Proof.
  split; [exact pow_int_laws|].
  split; [repeat constructor|]. split; reflexivity.
Qed.

End BassFacts.

Module RemFacts.
Import JS JSFacts.

Lemma trunc_nonneg (x : Q) : 0 <= x -> trunc x = Qfloor x.
Proof.
  destruct x as [n d]. unfold trunc, Qfloor, Qle. simpl. intros H.
  apply Z.quot_div_nonneg; lia.
Qed.

Lemma trunc_nonpos (x : Q) : x <= 0 -> trunc x = Qceiling x.
Proof.
  destruct x as [n d]. unfold trunc, Qceiling, Qfloor, Qle. simpl.
  intros H.
  rewrite <- (Z.opp_involutive n) at 1.
  rewrite Z.quot_opp_l by lia.
  f_equal. apply Z.quot_div_nonneg; lia.
Qed.

(** Truncation moves toward zero by less than 1. *)
Lemma trunc_bounds (x : Q) :
  (0 <= x -> inject_Z (trunc x) <= x < inject_Z (trunc x) + 1) /\
  (x <= 0 -> inject_Z (trunc x) - 1 < x <= inject_Z (trunc x)).
Proof.
  split; intros H.
  - rewrite (trunc_nonneg x H).
    pose proof (Qfloor_le x). pose proof (Qlt_floor x) as Hlt.
    rewrite inject_Z_plus in Hlt. change (inject_Z 1) with 1 in Hlt.
    split; assumption.
  - rewrite (trunc_nonpos x H).
    pose proof (Qle_ceiling x). pose proof (Qceiling_lt x) as Hlt.
    unfold Z.sub in Hlt. rewrite inject_Z_plus in Hlt.
    change (inject_Z (- (1))) with (- (1)) in Hlt.
    split; [lra | assumption].
Qed.

(** The remainder by a positive modulus has the sign of the dividend and
    is smaller than the modulus. *)
Lemma rem_bounds (x m : Q) :
  0 < m ->
  (0 <= x -> 0 <= rem x m < m) /\ (x <= 0 -> - m < rem x m <= 0).
Proof.
  intros Hm. unfold rem.
  assert (Hx : x == m * (x / m)) by (field; lra).
  destruct (trunc_bounds (x / m)) as [Hpos Hneg].
  set (t := inject_Z (trunc (x / m))) in *.
  split; intros H.
  - assert (Hq : 0 <= x / m) by (apply Qle_shift_div_l; lra).
    destruct (Hpos Hq) as [Hlo Hhi].
    assert (m * t <= m * (x / m)) by (apply Qmult_le_l; assumption).
    assert (m * (x / m) < m * (t + 1)) by (apply Qmult_lt_l; assumption).
    lra.
  - assert (Hq : x / m <= 0) by (apply Qle_shift_div_r; lra).
    destruct (Hneg Hq) as [Hlo Hhi].
    assert (m * (t - 1) < m * (x / m)) by (apply Qmult_lt_l; assumption).
    assert (m * (x / m) <= m * t) by (apply Qmult_le_l; assumption).
    lra.
Qed.


End RemFacts.

Module HueFacts.
Import JS JSFacts Analyzer Holiday Spec RemFacts.





(** An inherited name that is not in the table has no number for a
    hue. *)
Lemma targetHueOf_inherited (label : string) :
  In label objectPrototype -> targetHueOf label = NaN.
Proof.
  intros Hin. cbn in Hin.
  repeat (destruct Hin as [<-|Hin]; [reflexivity|]). contradiction.
Qed.








End HueFacts.

Module ElementFacts.
Import JS JSFacts Analyzer Holiday Spec.

(** [updateElementAnimation] leaves the pattern alone, and leaves
    [active] alone for the patterns that do not assign it. *)
Lemma animation_keeps_active (pf : Platform) (v : HolidayVisualization)
    (el : LightElement) (energy : Q) (draws : nat) :
  leavesActive (pattern el) = true ->
  active (fst (updateElementAnimation pf v el energy draws)) = active el.
Proof.
  unfold updateElementAnimation.
  destruct (pattern el) eqn:E; cbn [leavesActive]; intros H;
    try discriminate; cbn [fst active with_lastUpdateTime];
    try reflexivity.
  - destruct (points el) as [pts|]; [|reflexivity].
    destruct (1 <? length pts)%nat; reflexivity.
  - destruct (ltb _ _); reflexivity.
Qed.

Lemma updateElement_active (pf : Platform) (v : HolidayVisualization)
    (ad : AudioAnalysisData) (el : LightElement) (draws : nat) :
  leavesActive (pattern el) = true ->
  0.3 < bandEnergy (dominantInstrument v) (frequencyData ad) el ->
  active (fst (updateElement pf v ad el draws)) = true.
Proof.
  intros Hp He. unfold updateElement.
  set (energy := bandEnergy (dominantInstrument v) (frequencyData ad) el)
    in *.
  unfold gtb. rewrite (proj2 (ltb_true 0.3 energy) He).
  set (el1 := with_active true (with_brightness _ el)).
  pose proof (animation_keeps_active pf v el1 energy draws Hp) as Ha.
  destruct (updateElementAnimation pf v el1 energy draws) as [el2 d2].
  cbn [fst] in *.
  destruct (truthy (dominantInstrument v)
            && same (instrument el2) (dominantInstrument v));
    cbn [active with_color]; rewrite Ha; reflexivity.
Qed.

Lemma updateAll_active (pf : Platform) (v : HolidayVisualization)
    (ad : AudioAnalysisData) (els : list LightElement) (draws : nat) :
  Forall2
    (fun el el' =>
       leavesActive (pattern el) = true ->
       0.3 < bandEnergy (dominantInstrument v) (frequencyData ad) el ->
       active el' = true)
    els (updateAll pf v ad els draws).
Proof.
  revert draws. induction els as [|el els IH]; intros draws;
    cbn [updateAll]; [constructor|].
  pose proof (updateElement_active pf v ad el draws) as Hel.
  destruct (updateElement pf v ad el draws) as [el' draws'].
  constructor; [exact Hel | apply IH].
Qed.

(** C5, as amended.  After [updateElements], every element whose energy
    is above 0.3 and whose pattern is STATIC, CHASE, WAVE, FADE or
    ALTERNATE is active.  With BLINK, STROBE and TWINKLE the rule of the
    pattern, which runs after the self-activation, decides instead. *)
Theorem loud_elements_end_active (pf : Platform)
    (v : HolidayVisualization) (ad : AudioAnalysisData) :
  let dominant := dominantInstrument (updateHue v ad) in
  Forall2
    (fun el el' =>
       leavesActive (pattern el) = true ->
       0.3 < bandEnergy dominant (frequencyData ad) el ->
       active el' = true)
    (elements v) (elements (updateElements pf v ad)) /\
  (forall (el : LightElement) (draws : nat),
      let energy := bandEnergy dominant (frequencyData ad) el in
      let el' := fst (updateElement pf (updateHue v ad) ad el draws) in
      (pattern el = BLINK ->
       active el' = gtb (Math_sin pf (time v * 5 * energy)) 0) /\
      (pattern el = STROBE ->
       active el' =
         ltb (rem (strobePhase (state el) + energy * 0.5) 1) 0.5) /\
      (pattern el = TWINKLE ->
       active el' =
         xorb (ltb (Math_random pf draws) (energy * 0.2))
           (if gtb energy 0.3 then true else active el))).
Proof.
  intros dominant. split.
  - unfold updateElements. cbn [elements].
    replace (elements v) with (elements (updateHue v ad)) at 1.
    + apply updateAll_active.
    + unfold updateHue. destruct (truthy (instrumentPrediction ad));
        reflexivity.
  - intros el draws energy el'.
    assert (Htime : time (updateHue v ad) = time v).
    { unfold updateHue. destruct (truthy (instrumentPrediction ad));
        reflexivity. }
    subst el'. unfold updateElement. fold dominant. fold energy.
    unfold updateElementAnimation.
    split; [|split]; intros Hp.
    + destruct (gtb energy 0.3); cbn [pattern with_active with_brightness];
        rewrite Hp, Htime;
        match goal with
        | |- context [if ?c then _ else _] => destruct c
        end; reflexivity.
    + destruct (gtb energy 0.3);
        cbn [pattern with_active with_brightness state];
        rewrite Hp;
        match goal with
        | |- context [if ?c then _ else _] => destruct c
        end; reflexivity.
    + destruct (gtb energy 0.3);
        cbn [pattern with_active with_brightness active];
        rewrite Hp;
        destruct (ltb (Math_random pf draws) (energy * 0.2));
        match goal with
        | |- context [if ?c then _ else _] => destruct c
        end; cbn; try reflexivity; now destruct (active el).
Qed.

Lemma loud_elements_end_active_witness :
  Forall2
    (fun el el' =>
       leavesActive (pattern el) = true ->
       0.3 < bandEnergy None (frequencyData loud) el ->
       active el' = true)
    [door 0]
    (elements (updateElements (platformAt 16) (create [door 0]) loud)).
Proof.
  exact (proj1 (loud_elements_end_active (platformAt 16)
                  (create [door 0]) loud)).
Defined.

(** C5, as stated, fails.  With every bin at 255 the star of the scene
    (pattern STROBE, strobe phase 0) has energy 1; its phase becomes 0.5,
    which is not below 0.5, and the star ends its first tick inactive. *)
Lemma loud_star_ends_inactive :
  bandEnergy None (repeat (u8 255) 128) (star 0) == 1 /\
  forall pf : Platform,
    map active
      (elements
         (updateElements pf (create [star 0])
            (frame (repeat (u8 255) 128) None)))
    = [false].
Proof.
  split; [vm_compute; reflexivity|]. intros pf. reflexivity.
Qed.

End ElementFacts.

Module PlayerFacts.
Import JS JSFacts Player Spec.

Lemma Math_max_0_nonneg (x : Q) : 0 <= Math_max 0 x.
Proof.
  unfold Math_max. destruct (Qlt_le_dec 0 x); lra.
Qed.

Lemma clamp_volume (v : Q) :
  Math_max 0 (Math_min 1 v) == clamp01 v /\ 0 <= clamp01 v <= 1.
Proof.
  unfold Math_max, Math_min, clamp01.
  destruct (Qlt_le_dec v 1), (Qlt_le_dec v 0), (Qlt_le_dec 1 v);
    try destruct (Qlt_le_dec 0 v); try destruct (Qlt_le_dec 0 1);
    split; lra.
Qed.

(** The value [setVolume] assigns: [NaN] for [NaN], and otherwise the
    volume clamped into [[0, 1]], the infinities included. *)
Lemma clamp_volume_number (v : number) :
  (v = NaN /\ max_number (Num 0) (min_number (Num 1) v) = NaN) \/
  (exists g : Q,
      max_number (Num 0) (min_number (Num 1) v) = Num g /\
      0 <= g <= 1 /\
      (forall q : Q, v = Num q -> g == clamp01 q) /\
      (v = NegInf -> g == 0) /\ (v = PosInf -> g == 1)).
Proof.
  destruct v as [q| | |]; [right|right|right|left; now split].
  - exists (Math_max 0 (Math_min 1 q)).
    destruct (clamp_volume q) as [Heq Hr].
    split; [reflexivity|]. split; [lra|].
    split; [|split; discriminate].
    intros q' Hq. injection Hq as <-. exact Heq.
  - exists (Math_max 0 1). split; [reflexivity|].
    assert (H : Math_max 0 1 == 1) by reflexivity.
    split; [lra|]. split; [discriminate|]. split; [discriminate|].
    intros _. exact H.
  - exists 0. split; [reflexivity|]. split; [lra|].
    split; [discriminate|]. split; [reflexivity|discriminate].
Qed.

Lemma invariant_create : invariant create.
Proof.
  split; cbn; try discriminate; try reflexivity; try lra.
  exists (Num 1). split; [reflexivity|]. right.
  exists 1. split; [reflexivity|lra].
Qed.

Lemma invariant_stop (p : AudioPlayer) : invariant p -> invariant (stop p).
Proof.
  intros Hinv. unfold stop.
  destruct (sourceNode p) eqn:E; [|exact Hinv].
  destruct Hinv as [Hp Ha Hg Hs Hb Ht].
  split; cbn; try discriminate; try assumption; lra.
Qed.

Lemma invariant_play (p : AudioPlayer) : invariant p -> invariant (play p).
Proof.
  intros Hinv. unfold play.
  destruct (currentBuffer p) as [b|] eqn:Eb; [|exact Hinv].
  destruct (analyserNode p) eqn:Ea; cbn [negb]; [|exact Hinv].
  set (q := if isPlaying p then stop p else p).
  assert (Hq : invariant q).
  { unfold q. destruct (isPlaying p); [now apply invariant_stop|exact Hinv]. }
  assert (Hqb : currentBuffer q = Some b).
  { unfold q, stop. destruct (isPlaying p); [|exact Eb].
    destruct (sourceNode p); exact Eb. }
  destruct Hq as [Hp Ha Hg Hs Hb Ht].
  split; cbn; try assumption; try discriminate.
  - intros _. rewrite Hqb. discriminate.
  - intros _. unfold gtb.
    destruct (ltb 0 (pauseTime q)); lra.
Qed.

Lemma invariant_with_pauseTime (t : Q) (p : AudioPlayer) :
  0 <= t -> invariant p -> invariant (with_pauseTime t p).
Proof.
  intros Ht [Hp Ha Hg Hs Hb Hst]. split; cbn; assumption.
Qed.

Lemma invariant_apply (e : event) (p : AudioPlayer) :
  possible e p -> invariant p -> invariant (apply e p).
Proof.
  intros Hposs Hinv. destruct e; cbn [apply possible] in *.
  - destruct Hinv as [Hp Ha Hg Hs Hb Ht].
    split; cbn; try assumption. discriminate.
  - now apply invariant_play.
  - unfold pause. destruct (sourceNode p) eqn:E; [|exact Hinv].
    destruct (isPlaying p) eqn:Ep; cbn [negb]; [|exact Hinv].
    destruct Hinv as [Hp Ha Hg Hs Hb Ht].
    split; cbn; try assumption; try discriminate.
    unfold getCurrentTime. rewrite Ep. cbn [negb].
    specialize (Ht Ep). lra.
  - now apply invariant_stop.
  - unfold seekTo. destruct (currentBuffer p) as [b|] eqn:Eb; [|exact Hinv].
    assert (Hq : invariant
                   (with_pauseTime (Math_max 0 (Math_min (duration b) time))
                      (if isPlaying p then stop p else p))).
    { apply invariant_with_pauseTime; [apply Math_max_0_nonneg|].
      destruct (isPlaying p); [now apply invariant_stop|exact Hinv]. }
    destruct (isPlaying p); [now apply invariant_play|exact Hq].
  - unfold setVolume. destruct (gainNode p) eqn:Eg; [|exact Hinv].
    destruct Hinv as [Hp Ha Hg Hs Hb Ht].
    split; cbn; try assumption.
    eexists. split; [reflexivity|].
    destruct (clamp_volume_number volume)
      as [[_ Hnan]|[g [Hclamp [Hr _]]]]; [left; exact Hnan|].
    right. exists g. split; [exact Hclamp|exact Hr].
  - now apply invariant_stop.
  - destruct Hinv as [Hp Ha Hg Hs Hb Ht].
    split; cbn; try assumption.
    intros H. specialize (Ht H). lra.
  - destruct Hinv as [Hp Ha Hg Hs Hb Ht].
    split; cbn; try assumption; try discriminate; lra.
Qed.

Lemma reachable_invariant (p : AudioPlayer) : reachable p -> invariant p.
Proof.
  induction 1 as [|e p Hreach IH Hposs].
  - exact invariant_create.
  - now apply invariant_apply.
Qed.

(** A run of possible events from the constructor is reachable. *)
Lemma reachable_run (es : list event) (p : AudioPlayer) :
  reachable p ->
  allPossible es p ->
  reachable (run es p).
Proof.
  revert p. induction es as [|e es IH]; intros p Hp Hall; cbn.
  - exact Hp.
  - destruct Hall as [He Hrest]. apply IH; [|exact Hrest].
    now apply reach_event.
Qed.

Lemma playing_reachable :
  reachable (run [LoadAudio song; Play; Advance 3] create).
Proof.
  apply reachable_run; [exact reach_create|].
  cbn. repeat split. discriminate.
Qed.

(** C4.  From a playing state at position [t], [pause()] stores
    [pauseTime = contextTime - startTime = t], and [play()] right after it
    starts a new source node at the offset [pauseTime] with
    [startTime = contextTime - pauseTime]: the player is playing again
    and its position is [t] (the clock has not moved). *)
Theorem pause_then_play_keeps_position (p : AudioPlayer)
    (Hreach : reachable p) (Hplaying : isPlaying p = true) :
  let t := getCurrentTime p in
  let paused := pause p in
  let resumed := play paused in
  isPlaying paused = false /\
  pauseTime paused == contextTime p - startTime p /\
  getCurrentTime paused == t /\
  isPlaying resumed = true /\
  contextTime resumed = contextTime p /\
  startTime resumed == contextTime resumed - pauseTime paused /\
  getCurrentTime resumed == t /\
  exists (i : nat) (node : SourceNode),
    sourceNode resumed = Some i /\
    nth_error (nodes resumed) i = Some node /\
    stopped node = false /\
    offset node == pauseTime paused.
Proof.
  pose proof (reachable_invariant p Hreach) as Hinv.
  destruct (sourceNode p) as [i|] eqn:Es;
    [|now destruct (inv_source p Hinv Hplaying)].
  destruct (currentBuffer p) as [b|] eqn:Eb;
    [|now destruct (inv_buffer p Hinv Hplaying)].
  pose proof (inv_analyser p Hinv) as Ea.
  pose proof (inv_start p Hinv Hplaying) as Hstart.
  intros t paused resumed.
  assert (Ht : t = contextTime p - startTime p).
  { unfold t, getCurrentTime. now rewrite Hplaying. }
  assert (Hpaused :
            paused =
            {| contextTime := contextTime p;
               nodes := stopNode i (nodes p);
               sourceNode := None; gainNode := gainNode p;
               analyserNode := analyserNode p;
               currentBuffer := currentBuffer p;
               startTime := startTime p; pauseTime := t;
               isPlaying := false |}).
  { unfold paused, pause. now rewrite Es, Hplaying. }
  subst resumed. rewrite Hpaused. unfold play.
  cbn [currentBuffer analyserNode isPlaying pauseTime contextTime
       nodes startTime getCurrentTime negb].
  rewrite Eb, Ea. cbn [negb].
  cbn [isPlaying getCurrentTime pauseTime startTime contextTime negb
       sourceNode nodes].
  assert (Ht0 : 0 <= t) by (rewrite Ht; lra).
  assert (Hnth : forall node : SourceNode,
             nth_error (stopNode i (nodes p) ++ [node])
               (length (stopNode i (nodes p))) = Some node).
  { intros node. now rewrite nth_error_app2, Nat.sub_diag by apply le_n. }
  unfold gtb. destruct (ltb 0 t) eqn:Eres.
  - repeat (split; [first [reflexivity | rewrite Ht; ring | ring]|]).
    eexists. eexists. split; [reflexivity|].
    split; [apply Hnth|]. split; reflexivity.
  - apply ltb_false in Eres.
    repeat (split;
            [first [reflexivity | rewrite Ht; ring | ring | lra]|]).
    eexists. eexists. split; [reflexivity|].
    split; [apply Hnth|]. split; [reflexivity|]. cbn [offset]. lra.
Qed.

Lemma pause_then_play_keeps_position_witness :
  let p := run [LoadAudio song; Play; Advance 3] create in
  reachable p /\ isPlaying p = true /\
  getCurrentTime p == 3 /\
  getCurrentTime (play (pause p)) == getCurrentTime p.
Proof.
  intros p. split; [exact playing_reachable|].
  split; [reflexivity|]. split; [reflexivity|].
  pose proof (pause_then_play_keeps_position p playing_reachable eq_refl)
    as H.
  exact (proj1 (proj2 (proj2 (proj2 (proj2 (proj2 (proj2 H))))))).
Defined.

(** C9.  [play()] does nothing when no buffer is loaded, and in every
    state the player can be in, [isPlaying] implies a loaded buffer. *)
Theorem playing_implies_buffer (p : AudioPlayer) (Hreach : reachable p) :
  (currentBuffer p = None -> play p = p) /\
  (isPlaying p = true -> currentBuffer p <> None).
Proof.
  split.
  - intros Hb. unfold play. now rewrite Hb.
  - apply (inv_buffer p). now apply reachable_invariant.
Qed.

Lemma playing_implies_buffer_witness :
  reachable create /\ currentBuffer create = None /\
  play create = create /\
  reachable (run [LoadAudio song; Play; Advance 3] create) /\
  isPlaying (run [LoadAudio song; Play; Advance 3] create) = true /\
  currentBuffer (run [LoadAudio song; Play; Advance 3] create) <> None.
Proof.
  split; [exact reach_create|]. split; [reflexivity|].
  split; [exact (proj1 (playing_implies_buffer create reach_create)
                   eq_refl)|].
  split; [exact playing_reachable|]. split; [reflexivity|].
  exact (proj2 (playing_implies_buffer _ playing_reachable) eq_refl).
Defined.




(** C7 at the failing input.  After [loadAudio], [play], two seconds and
    [seekTo(5)], node 1 is the active source and node 0 has been stopped
    and replaced.  The [ended] event of node 0 still runs the handler:
    the player, which was playing at [pauseTime] 5, reports not playing at
    position 0 while node 1 goes on. *)
Theorem stale_ended_resets_player :
  let p := run [LoadAudio song; Play; Advance 2; SeekTo 5] create in
  reachable p /\ possible (Ended 0) p /\
  sourceNode p = Some 1%nat /\
  map stopped (nodes p) = [true; false] /\
  isPlaying p = true /\ pauseTime p == 5 /\ getCurrentTime p == 5 /\
  isPlaying (apply (Ended 0) p) = false /\
  pauseTime (apply (Ended 0) p) == 0 /\
  getCurrentTime (apply (Ended 0) p) == 0 /\
  sourceNode (apply (Ended 0) p) = Some 1%nat /\
  apply (Ended 0) p <> p.
Proof.
  intros p. split.
  { apply reachable_run; [exact reach_create|]. cbn. repeat split.
    discriminate. }
  repeat split; try reflexivity.
  - cbn. lia.
  - intros H. apply (f_equal isPlaying) in H. discriminate H.
Qed.

End PlayerFacts.

Module AppFacts.
Import App.

(** The handler of [App] compares the node with the current one: the
    [ended] event of a node that is not the current one changes
    nothing, and that of the current node stops the transport. *)
Lemma stale_ended_ignored (a : App) (node : nat) :
  sourceNodeRef a <> Some node -> onended node a = a.
Proof.
  intros H. unfold onended.
  destruct (sourceNodeRef a) as [current|]; [|reflexivity].
  destruct (Nat.eqb current node) eqn:E; [|reflexivity].
  apply Nat.eqb_eq in E. subst. now destruct H.
Qed.

Lemma current_ended_stops (a : App) (node : nat) :
  sourceNodeRef a = Some node ->
  isPlaying (onended node a) = false /\
  isPaused (onended node a) = false /\
  currentTime (onended node a) = 0 /\
  pauseTimeRef (onended node a) = 0.
Proof.
  intros H. unfold onended. rewrite H, Nat.eqb_refl. now cbn.
Qed.

End AppFacts.

Module VisualizerFacts.
Import Visualizer Spec.

Lemma quiet_refl (c : Component) : quiet c c.
Proof.
  exists []. split; [now rewrite app_nil_r|reflexivity].
Qed.


(** A step that appends one action other than a destroy. *)
Lemma quiet_step (c c' : Component) (a : action) :
  log c' = log c ++ [a] -> notDestroy a = true -> quiet c c'.
Proof.
  intros Hl Ha. exists [a]. split; [exact Hl|]. cbn. now rewrite Ha.
Qed.



Lemma quiet_cancelFrame (c : Component) :
  (exists pre : list action,
      log (cancelFrame c) = log c ++ pre /\ forallb isCancel pre = true) /\
  quiet c (cancelFrame c) /\
  (forall r : slot, ref r (cancelFrame c) = ref r c).
Proof.
  unfold cancelFrame. destruct (rafIdRef c) as [id|].
  - split; [exists [CancelFrame id]; now split|].
    split; [now apply (quiet_step _ _ (CancelFrame id))|].
    now intros [].
  - split; [exists []; split; [now rewrite app_nil_r|reflexivity]|].
    split; [apply quiet_refl|reflexivity].
Qed.










Lemma cleanup_spec (c : Component) :
  (exists pre : list action,
      log (cleanup c) = log c ++ pre /\ forallb isCancel pre = true) /\
  (forall r : slot, ref r (cleanup c) = ref r c).
Proof.
  unfold cleanup. destruct (hasCleanup c).
  - destruct (quiet_cancelFrame c) as [Hpre [_ Hr]]. now split.
  - split; [|reflexivity].
    exists []. split; [now rewrite app_nil_r|reflexivity].
Qed.



Lemma occurrences_app (a : action) (l1 l2 : list action) :
  occurrences a (l1 ++ l2) = (occurrences a l1 + occurrences a l2)%nat.
Proof.
  unfold occurrences. now rewrite filter_app, length_app.
Qed.

Lemma occurrences_none (a : action) (f : action -> bool)
    (l : list action) :
  forallb f l = true -> f a = false ->
  (forall b, action_eqb a b = true -> f b = f a) ->
  occurrences a l = 0%nat.
Proof.
  intros Hall Ha Heq. unfold occurrences.
  induction l as [|b l IH]; [reflexivity|].
  cbn in *. apply andb_true_iff in Hall as [Hb Hl].
  destruct (action_eqb a b) eqn:E; [|now apply IH].
  rewrite (Heq b E), Ha in Hb. discriminate.
Qed.

Lemma destroy_not_in_cancels (s : slot) (i : nat) (l : list action) :
  forallb isCancel l = true -> occurrences (Destroy s i) l = 0%nat.
Proof.
  intros H. apply (occurrences_none _ isCancel); [exact H|reflexivity|].
  now intros [].
Qed.


Lemma slot_eqb_refl (s : slot) : slot_eqb s s = true.
Proof. now destruct s. Qed.





End VisualizerFacts.

Module PeakFacts.
Import JS Analyzer Spec JSFacts AnalyzerFacts.

Lemma isPeak_not_next (fd : Uint8Array) (i : nat) :
  isPeak fd i = true -> isPeak fd (S i) = false.
Proof.
  intros H. apply isPeak_spec in H. destruct H as (_ & Hnext & _).
  destruct (isPeak fd (S i)) eqn:E; [|reflexivity].
  apply isPeak_spec in E. destruct E as (Hprev & _).
  replace (S i - 1)%nat with i in Hprev by lia.
  replace (i + 1)%nat with (S i) in Hnext by lia. lia.
Qed.

(** A test that never holds at two consecutive indices holds at no more
    than every other index of a range. *)
Lemma isolated_count (f : nat -> bool) :
  (forall i, f i = true -> f (S i) = false) ->
  forall n i,
    (2 * length (filter f (seq i n)) <= n + 1)%nat /\
    (f i = false -> (2 * length (filter f (seq i n)) <= n)%nat).
Proof.
  intros Hf. induction n as [|n IH]; intros i; cbn [seq filter].
  - cbn. lia.
  - destruct (IH (S i)) as [IHa IHb].
    destruct (f i) eqn:E; cbn [length].
    + specialize (IHb (Hf i E)). split; [lia|discriminate].
    + split; [lia|]. intros _. lia.
Qed.

(** X1.  No two neighbouring bins are both peaks, so a frame of [N] bins
    has at most [(N - 1) / 2] peaks. *)
Theorem peaks_are_isolated
    (a : AudioAnalyzer) (fd td : Uint8Array) (ad : AudioAnalysisData)
    (Hframe : getAnalysisData a fd td = Some ad) :
  (forall i, In i (peaks ad) -> ~ In (S i) (peaks ad)) /\
  (2 * length (peaks ad) <= length fd - 1)%nat.
Proof.
  rewrite (getAnalysisData_peaks a fd td ad Hframe), detectPeaks_filter.
  split.
  - intros i Hi Hn. apply filter_In in Hi, Hn.
    destruct Hi as [_ Hi]. destruct Hn as [_ Hn].
    rewrite (isPeak_not_next fd i Hi) in Hn. discriminate.
  - destruct (isolated_count (isPeak fd) (isPeak_not_next fd)
                (length fd - 2) 1) as [Hc _].
    destruct (length fd) as [|[|n]]; cbn in *; lia.
Qed.

Lemma peaks_are_isolated_witness :
  exists ad : AudioAnalysisData,
    getAnalysisData ready (spike 2) [] = Some ad /\
    ~ In 3%nat (peaks ad) /\ (2 * length (peaks ad) <= 5)%nat.
Proof.
  eexists. split; [reflexivity|].
  destruct (peaks_are_isolated ready (spike 2) [] _ eq_refl) as [Hi Hc].
  split; [|exact Hc].
  apply (Hi 2%nat). now left.
Defined.

End PeakFacts.

Module EnergyFacts.
Import JS Analyzer Rectangular Spec JSFacts BassFacts.

Lemma frequencyWeight_upper (bassRange : Z) (i : nat) :
  (0 < bassRange)%Z ->
  1 - (inject_Z (Z.of_nat i) / inject_Z bassRange) * 0.7 <= 1.
Proof.
  intros Hb.
  assert (Hq : 0 <= inject_Z (Z.of_nat i) / inject_Z bassRange).
  { apply Qle_shift_div_l; [rewrite <- (Zlt_Qlt 0); lia|].
    rewrite Qmult_0_l, <- (Zle_Qle 0). lia. }
  lra.
Qed.

Lemma magnitude_unit (fd : Uint8Array) (i : nat) :
  0 <= inject_Z (get fd i) / 255 <= 1.
Proof.
  unfold get. pose proof (val_range (nth i fd x00)) as [Hlo Hhi].
  rewrite Zle_Qle in Hlo, Hhi.
  change (inject_Z 0) with 0 in Hlo. change (inject_Z 255) with 255 in Hhi.
  split.
  - apply Qle_shift_div_l; lra.
  - apply Qle_shift_div_r; lra.
Qed.

(** The loop adds to the energy no more than it adds to the weight, and
    at least 0.3 to the weight for every bin. *)
Lemma bassLoop_bounds (fd : Uint8Array) (bassRange : Z) (n i : nat)
    (energy weight : Q) :
  (Z.of_nat (i + n) <= bassRange)%Z ->
  let '(e, w) := bassLoop fd (inject_Z bassRange) n i energy weight in
  energy <= e /\ e - energy <= w - weight /\
  weight + 0.3 * inject_Z (Z.of_nat n) <= w.
Proof.
  revert i energy weight.
  induction n as [|n IH]; intros i energy weight Hi.
  - cbn [bassLoop]. change (inject_Z (Z.of_nat 0)) with 0. lra.
  - cbn [bassLoop].
    pose proof (frequencyWeight_lower bassRange i ltac:(lia)) as Hlo.
    pose proof (frequencyWeight_upper bassRange i ltac:(lia)) as Hhi.
    pose proof (magnitude_unit fd i) as Hm.
    set (fw := 1 - inject_Z (Z.of_nat i) / inject_Z bassRange * 0.7) in *.
    set (m := inject_Z (get fd i) / 255) in *.
    specialize (IH (S i) (energy + m * fw) (weight + fw) ltac:(lia)).
    destruct (bassLoop fd (inject_Z bassRange) n (S i)
                (energy + m * fw) (weight + fw)) as [e w].
    destruct IH as (IH1 & IH2 & IH3).
    rewrite Nat2Z.inj_succ. unfold Z.succ. rewrite inject_Z_plus.
    change (inject_Z 1) with 1.
    assert (0 <= m * fw) by (apply Qmult_le_0_compat; lra).
    assert (m * fw <= 1 * fw) by (apply Qmult_le_compat_r; lra).
    lra.
Qed.

Lemma bassRange_small (fd : Uint8Array) :
  (length fd < 10)%nat -> bassRangeOf fd = 0%Z.
Proof.
  intros H. unfold bassRangeOf, Math_floor.
  set (x := inject_Z (Z.of_nat (length fd)) * 0.1).
  assert (Hlo : 0 <= inject_Z (Z.of_nat (length fd)))
    by (rewrite <- (Zle_Qle 0); lia).
  assert (Hhi : inject_Z (Z.of_nat (length fd)) < inject_Z 10)
    by (rewrite <- Zlt_Qlt; lia).
  change (inject_Z 10) with 10 in Hhi.
  pose proof (Qfloor_le x) as H1. pose proof (Qlt_floor x) as H2.
  rewrite inject_Z_plus in H2. change (inject_Z 1) with 1 in H2.
  assert (Hx : 0 <= x < 1) by (unfold x; lra).
  assert (Ha : inject_Z (-1) < inject_Z (Qfloor x))
    by (change (inject_Z (-1)) with (- (1)); lra).
  assert (Hb : inject_Z (Qfloor x) < inject_Z 1)
    by (change (inject_Z 1) with 1; lra).
  rewrite <- Zlt_Qlt in Ha, Hb. lia.
Qed.

(** X2.  [normalizedEnergy], the value [getBassEnergy] raises to the
    power 1.5, is [NaN] exactly for arrays of fewer than 10 bins, and
    otherwise a number between 0 and 1. *)
Theorem normalizedEnergy_range (fd : Uint8Array) :
  (normalizedEnergy fd = NaN <-> (length fd < 10)%nat) /\
  ((10 <= length fd)%nat ->
   exists q : Q, normalizedEnergy fd = Num q /\ 0 <= q <= 1).
Proof.
  assert (Hbig : (10 <= length fd)%nat ->
                 exists q : Q, normalizedEnergy fd = Num q /\ 0 <= q <= 1).
  { intros Hlen. unfold normalizedEnergy.
    pose proof (bassRange_positive fd Hlen) as Hb.
    pose proof (bassLoop_bounds fd (bassRangeOf fd)
                  (Z.to_nat (bassRangeOf fd)) 0 0 0 ltac:(lia)) as Hloop.
    destruct (bassLoop fd (inject_Z (bassRangeOf fd))
                (Z.to_nat (bassRangeOf fd)) 0 0 0) as [e w].
    destruct Hloop as (He & Hew & Hw).
    assert (Hn : 1 <= inject_Z (Z.of_nat (Z.to_nat (bassRangeOf fd)))).
    { change 1 with (inject_Z 1). rewrite <- Zle_Qle. lia. }
    assert (Hw0 : 0 < w) by lra.
    rewrite div_finite by lra.
    eexists. split; [reflexivity|]. rewrite Qred_correct. split.
    - apply Qle_shift_div_l; lra.
    - apply Qle_shift_div_r; lra. }
  split; [|exact Hbig]. split.
  - intros Hnan. destruct (Nat.lt_ge_cases (length fd) 10) as [H|H];
      [exact H|].
    destruct (Hbig H) as [q [Hq _]]. rewrite Hq in Hnan. discriminate.
  - intros Hlen. unfold normalizedEnergy.
    now rewrite (bassRange_small fd Hlen).
Qed.

Lemma normalizedEnergy_range_witness :
  (10 <= length (repeat (u8 255) 20))%nat /\
  exists q : Q, normalizedEnergy (repeat (u8 255) 20) = Num q /\ 0 <= q <= 1.
Proof.
  assert (H : (10 <= length (repeat (u8 255) 20))%nat) by (cbn; lia).
  split; [exact H|].
  exact (proj2 (normalizedEnergy_range (repeat (u8 255) 20)) H).
Defined.

Lemma get_le (fd1 fd2 : Uint8Array) (i : nat) :
  Forall2 (fun a b => (val a <= val b)%Z) fd1 fd2 ->
  (get fd1 i <= get fd2 i)%Z.
Proof.
  intros H. unfold get. revert i.
  induction H as [|a b l1 l2 Hab _ IH]; intros [|i]; cbn [nth];
    first [exact Hab | apply IH | lia].
Qed.

(** On two arrays the loop adds the same weights, and no more energy on
    the array that is nowhere larger. *)
Lemma bassLoop_monotone (fd1 fd2 : Uint8Array) (bassRange : Z)
    (n i : nat) (e1 e2 weight : Q) :
  Forall2 (fun a b => (val a <= val b)%Z) fd1 fd2 ->
  (Z.of_nat (i + n) <= bassRange)%Z ->
  e1 <= e2 ->
  fst (bassLoop fd1 (inject_Z bassRange) n i e1 weight)
  <= fst (bassLoop fd2 (inject_Z bassRange) n i e2 weight) /\
  snd (bassLoop fd1 (inject_Z bassRange) n i e1 weight)
  = snd (bassLoop fd2 (inject_Z bassRange) n i e2 weight).
Proof.
  intros Hle. revert i e1 e2 weight.
  induction n as [|n IH]; intros i e1 e2 weight Hi He; cbn [bassLoop].
  - split; [exact He|reflexivity].
  - apply IH; [lia|].
    pose proof (frequencyWeight_lower bassRange i ltac:(lia)) as Hlo.
    set (fw := 1 - inject_Z (Z.of_nat i) / inject_Z bassRange * 0.7) in *.
    pose proof (get_le fd1 fd2 i Hle) as Hg. rewrite Zle_Qle in Hg.
    assert (inject_Z (get fd1 i) / 255 <= inject_Z (get fd2 i) / 255).
    { apply Qmult_le_compat_r; [exact Hg|]. discriminate. }
    assert (inject_Z (get fd1 i) / 255 * fw
            <= inject_Z (get fd2 i) / 255 * fw)
      by (apply Qmult_le_compat_r; lra).
    lra.
Qed.

(** X3.  [normalizedEnergy] is monotone: raising magnitudes never lowers
    it (arrays of the same length, at least 10 bins). *)
Theorem normalizedEnergy_monotone (fd1 fd2 : Uint8Array)
    (Hle : Forall2 (fun a b => (val a <= val b)%Z) fd1 fd2)
    (Hlen : (10 <= length fd1)%nat) :
  exists q1 q2 : Q,
    normalizedEnergy fd1 = Num q1 /\ normalizedEnergy fd2 = Num q2 /\
    q1 <= q2.
Proof.
  assert (Hsame : length fd1 = length fd2)
    by (exact (Forall2_length Hle)).
  pose proof (bassRange_positive fd1 Hlen) as Hb.
  assert (Hr : bassRangeOf fd2 = bassRangeOf fd1)
    by (unfold bassRangeOf; now rewrite Hsame).
  unfold normalizedEnergy. rewrite Hr.
  set (B := bassRangeOf fd1) in *.
  destruct (bassLoop_monotone fd1 fd2 B (Z.to_nat B) 0 0 0 0 Hle
              ltac:(lia) ltac:(lra)) as [He Hw].
  pose proof (bassLoop_bounds fd1 B (Z.to_nat B) 0 0 0 ltac:(lia)) as H1.
  destruct (bassLoop fd1 (inject_Z B) (Z.to_nat B) 0 0 0) as [e1 w1].
  destruct (bassLoop fd2 (inject_Z B) (Z.to_nat B) 0 0 0) as [e2 w2].
  cbn [fst snd] in He, Hw. subst w2.
  destruct H1 as (_ & _ & Hw1).
  assert (Hn : 1 <= inject_Z (Z.of_nat (Z.to_nat B))).
  { change 1 with (inject_Z 1). rewrite <- Zle_Qle. lia. }
  assert (Hw0 : 0 < w1) by lra.
  rewrite !div_finite by lra.
  eexists. eexists. split; [reflexivity|]. split; [reflexivity|].
  rewrite !Qred_correct.
  apply Qmult_le_compat_r; [exact He|].
  apply Qlt_le_weak, Qinv_lt_0_compat. exact Hw0.
Qed.

Lemma normalizedEnergy_monotone_witness :
  exists q1 q2 : Q,
    normalizedEnergy (repeat (u8 10) 20) = Num q1 /\
    normalizedEnergy (repeat (u8 200) 20) = Num q2 /\ q1 <= q2.
Proof.
  apply normalizedEnergy_monotone; [|cbn; lia].
  cbn [repeat]. repeat constructor; discriminate.
Defined.

End EnergyFacts.

Module RectangleFacts.
Import JS Rectangular JSFacts.

(** X4.  The setters clamp every number but [NaN].  The reactivity level
    is kept in [[0.1, 1]]: the given level when that lies inside, 0.1
    below (also for minus infinity), 1 above (also for infinity).  The
    media duration is the larger of the given duration and 1000 ms
    (infinity stays infinity).  A [NaN] is stored as [NaN] by both. *)
Theorem setters_clamp (r : RectangularVisualization)
    (level duration : number) :
  ((reactivityLevel (setReactivityLevel level r) = NaN <-> level = NaN) /\
   (level <> NaN ->
    exists l : Q,
      reactivityLevel (setReactivityLevel level r) = Num l /\
      0.1 <= l <= 1 /\
      (forall q : Q, level = Num q ->
         (0.1 <= q <= 1 -> l == q) /\
         (q < 0.1 -> l == 0.1) /\ (1 < q -> l == 1)) /\
      (level = NegInf -> l == 0.1) /\ (level = PosInf -> l == 1))) /\
  ((mediaDuration (setMediaDuration duration r) = NaN <->
    duration = NaN) /\
   (mediaDuration (setMediaDuration duration r) = PosInf <->
    duration = PosInf) /\
   (forall q : Q, duration = Num q ->
      exists d : Q,
        mediaDuration (setMediaDuration duration r) = Num d /\
        1000 <= d /\ q <= d /\
        (1000 <= q -> d == q) /\ (q <= 1000 -> d == 1000)) /\
   (duration = NegInf ->
    mediaDuration (setMediaDuration duration r) = Num 1000)).
Proof.
  cbn [reactivityLevel setReactivityLevel mediaDuration setMediaDuration].
  split.
  - split.
    + destruct level; cbn; split; intros H; try discriminate H;
        reflexivity.
    + intros Hlevel. destruct level as [q| | |]; [| | |contradiction].
      * exists (Math_max 0.1 (Math_min 1.0 q)).
        split; [reflexivity|].
        assert (Hc : 0.1 <= Math_max 0.1 (Math_min 1.0 q) <= 1 /\
                     (0.1 <= q <= 1 ->
                      Math_max 0.1 (Math_min 1.0 q) == q) /\
                     (q < 0.1 -> Math_max 0.1 (Math_min 1.0 q) == 0.1) /\
                     (1 < q -> Math_max 0.1 (Math_min 1.0 q) == 1)).
        { unfold Math_max, Math_min.
          destruct (Qlt_le_dec q 1.0);
            try destruct (Qlt_le_dec 0.1 q);
            try destruct (Qlt_le_dec 0.1 1.0);
            repeat split; intros; lra. }
        destruct Hc as (Hr & Hin & Hlo & Hhi).
        split; [exact Hr|]. split; [|split; discriminate].
        intros q' Hq. injection Hq as <-.
        split; [exact Hin|]. split; assumption.
      * exists (Math_max 0.1 1.0). split; [reflexivity|].
        assert (H : Math_max 0.1 1.0 == 1) by reflexivity.
        split; [lra|]. split; [discriminate|].
        split; [discriminate|]. intros _. exact H.
      * exists 0.1. split; [reflexivity|]. split; [lra|].
        split; [discriminate|]. split; [reflexivity|discriminate].
  - split; [|split; [|split]].
    + destruct duration; cbn; split; intros H; try discriminate H;
        reflexivity.
    + destruct duration; cbn; split; intros H; try discriminate H;
        reflexivity.
    + intros q ->. exists (Math_max 1000 q). split; [reflexivity|].
      unfold Math_max. destruct (Qlt_le_dec 1000 q);
        repeat split; intros; lra.
    + intros ->. reflexivity.
Qed.

(** X5.  The centre rectangle has the aspect ratio 16:9, is no wider than
    55% of the canvas width and no higher than 55% of its height, and
    reaches one of the two bounds. *)
Theorem centre_rectangle_fits (r : RectangularVisualization) :
  let r' := updateRectangleSize r in
  centerRectWidth r' * 9 == centerRectHeight r' * 16 /\
  centerRectWidth r' <= rectWidth r * 0.55 /\
  centerRectHeight r' <= rectHeight r * 0.55 /\
  (centerRectWidth r' == rectWidth r * 0.55 \/
   centerRectHeight r' == rectHeight r * 0.55).
Proof.
  unfold updateRectangleSize.
  destruct (Qle_bool (rectWidth r * 0.55 / 16 * 9) (rectHeight r * 0.55))
    eqn:E; cbn [centerRectWidth centerRectHeight].
  - apply Qle_bool_iff in E.
    split; [field|]. split; [lra|]. split; [exact E|]. left. reflexivity.
  - assert (H : ~ rectWidth r * 0.55 / 16 * 9 <= rectHeight r * 0.55).
    { intros H. apply Qle_bool_iff in H. congruence. }
    apply Qnot_le_lt in H.
    assert (rectWidth r * 0.55 / 16 * 9 == rectWidth r * 0.55 * (9 # 16))
      by field.
    assert (rectHeight r * 0.55 / 9 * 16 == rectHeight r * 0.55 * (16 # 9))
      by field.
    split; [field|]. split; [lra|]. split; [lra|]. right. reflexivity.
Qed.

Lemma lowerCase_app (a b : string) :
  lowerCase (a ++ b) = (lowerCase a ++ lowerCase b)%string.
Proof.
  induction a as [|c a IH]; cbn; [reflexivity|]. now rewrite IH.
Qed.

(** A lower-cased string splits where its lower-case image splits. *)
Lemma lowerCase_split (s a b : string) :
  lowerCase s = (a ++ b)%string ->
  exists s1 s2 : string,
    s = (s1 ++ s2)%string /\ lowerCase s1 = a /\ lowerCase s2 = b.
Proof.
  revert s. induction a as [|c a IH]; intros s H.
  - exists EmptyString, s. now repeat split.
  - destruct s as [|d s]; [discriminate|].
    cbn in H. injection H as Hc Hs.
    destruct (IH s Hs) as (s1 & s2 & -> & H1 & H2).
    exists (String d s1), s2. cbn. rewrite H1, Hc. now repeat split.
Qed.

Lemma endsWith_spec (suffix s : string) :
  endsWith suffix s = true <->
  exists base : string, s = (base ++ suffix)%string.
Proof.
  induction s as [|c s IH]; cbn [endsWith].
  - rewrite orb_false_r, String.eqb_eq. split.
    + intros <-. now exists EmptyString.
    + intros [[|d base] H]; [exact H|discriminate].
  - rewrite orb_true_iff, String.eqb_eq, IH. split.
    + intros [<-|[base ->]]; [now exists EmptyString|].
      now exists (String c base).
    + intros [[|d base] H]; [now left|].
      right. injection H as _ ->. now exists base.
Qed.

(** X6.  A media URL is taken for a video exactly when it ends in
    [.mp4], [.webm] or [.ogg], in any mix of upper and lower case;
    every other URL is taken for an image. *)
Theorem video_by_extension (u : string) :
  (isVideo u = true <->
   exists base ext : string,
     u = (base ++ ext)%string /\
     In (lowerCase ext) [".mp4"; ".webm"; ".ogg"]%string) /\
  mediaType (makeItem u) = (if isVideo u then video else image).
Proof.
  split; [|reflexivity].
  unfold isVideo. rewrite !orb_true_iff, !endsWith_spec. split.
  - intros [[[b H]|[b H]]|[b H]];
      destruct (lowerCase_split u _ _ H) as (s1 & s2 & -> & _ & H2);
      exists s1, s2; (split; [reflexivity|]); rewrite H2; cbn; tauto.
  - intros (base & ext & -> & Hin). rewrite lowerCase_app.
    destruct Hin as [<-|[<-|[<-|[]]]];
      [left; left|left; right|right]; now exists (lowerCase base).
Qed.

Lemma video_by_extension_witness :
  isVideo "file:///clips/Intro.MP4" = true /\
  isVideo "file:///clips/intro.mp4.png" = false.
Proof.
  split.
  - apply (proj1 (video_by_extension _)).
    exists "file:///clips/Intro"%string, ".MP4"%string.
    split; [reflexivity|]. now left.
  - reflexivity.
Defined.

Lemma markLoaded_length (u : string) (items : list MediaItem) :
  length (markLoaded u items) = length items.
Proof.
  induction items as [|item rest IH]; cbn; [reflexivity|].
  destruct (String.eqb (url item) u); cbn; [reflexivity|now rewrite IH].
Qed.

Lemma markLoaded_urls (u : string) (items : list MediaItem) :
  map url (markLoaded u items) = map url items /\
  map mediaType (markLoaded u items) = map mediaType items.
Proof.
  induction items as [|item rest [IH1 IH2]]; cbn; [now split|].
  destruct (String.eqb (url item) u); cbn; [now split|].
  now rewrite IH1, IH2.
Qed.

(** X7.  [setMediaItems] builds one item per URL, in order, none of them
    loaded, and makes the first one current; whatever the state before,
    the current index then names an item (or the list is empty), and
    [updateMedia] and the load handlers keep it so and keep the items'
    URLs and kinds. *)
Theorem media_index_stays_valid
    (r : RectangularVisualization) (items : list string) (now : Z)
    (u : string) :
  (let r' := setMediaItems items now r in
   map url (mediaItems r') = items /\
   Forall (fun item => loaded item = false) (mediaItems r') /\
   (items <> [] -> currentMediaIndex r' = 0%nat) /\
   validIndex r') /\
  (validIndex r ->
   validIndex (updateMedia now r) /\ validIndex (onloadeddata u r)
   /\ validIndex (onload u r)) /\
  (mediaItems (updateMedia now r) = mediaItems r /\
   map url (mediaItems (onloadeddata u r)) = map url (mediaItems r) /\
   map url (mediaItems (onload u r)) = map url (mediaItems r)).
Proof.
  split; [|split].
  - cbv zeta. unfold setMediaItems.
    destruct items as [|first rest]; cbn [map mediaItems currentMediaIndex].
    + repeat split; [constructor|contradiction|now left].
    + split.
      { cbn. f_equal. rewrite map_map. cbn. apply map_id. }
      split.
      { constructor; [reflexivity|]. apply Forall_forall.
        intros item Hin. apply in_map_iff in Hin.
        now destruct Hin as [x [<- _]]. }
      split; [reflexivity|]. right. cbn. lia.
  - intros Hv. split; [|split].
    + unfold updateMedia.
      destruct ((1 <? length (mediaItems r))%nat
                && gt_number _ _) eqn:E; [|exact Hv].
      apply andb_true_iff in E as [E _]. apply Nat.ltb_lt in E.
      right. cbn [mediaItems currentMediaIndex].
      apply Nat.mod_upper_bound. lia.
    + unfold onloadeddata. destruct (find _ _); [|exact Hv].
      destruct Hv as [Hv|Hv]; [left|right]; cbn [mediaItems currentMediaIndex].
      * now rewrite Hv.
      * now rewrite markLoaded_length.
    + unfold onload. destruct (find _ _); [|exact Hv].
      destruct Hv as [Hv|Hv]; [left|right]; cbn [mediaItems currentMediaIndex].
      * now rewrite Hv.
      * now rewrite markLoaded_length.
  - split; [|split].
    + unfold updateMedia. now destruct (_ && _).
    + unfold onloadeddata. destruct (find _ _); [|reflexivity].
      apply markLoaded_urls.
    + unfold onload. destruct (find _ _); [|reflexivity].
      apply markLoaded_urls.
Qed.

Lemma media_index_stays_valid_witness :
  let r := setMediaItems ["a.png"; "b.webm"]%string 10 (create 800 600) in
  validIndex r /\
  validIndex (updateMedia 6000 r) /\
  currentMediaIndex (updateMedia 6000 r) = 1%nat /\
  currentMediaIndex (updateMedia 12000 (updateMedia 6000 r)) = 0%nat.
Proof.
  intros r.
  pose proof (media_index_stays_valid (create 800 600)
                ["a.png"; "b.webm"]%string 10 EmptyString) as [H1 _].
  cbv zeta in H1. destruct H1 as (_ & _ & _ & Hv). fold r in Hv.
  split; [exact Hv|].
  destruct (media_index_stays_valid r [] 6000 EmptyString)
    as (_ & Hkeep & _).
  split; [exact (proj1 (Hkeep Hv))|]. split; reflexivity.
Defined.

End RectangleFacts.

Module SceneFacts.
Import JS JSFacts Analyzer Holiday Spec RemFacts.

(** The loop counts the bins it adds, and adds between 0 and 1 for each. *)
Lemma energyLoop_bounds (fd : Uint8Array) (n i : nat) (energy : Q)
    (count : nat) :
  let '(e, c) := energyLoop fd n i energy count in
  c = (count + n)%nat /\
  energy <= e /\ e <= energy + inject_Z (Z.of_nat n).
Proof.
  revert i energy count. induction n as [|n IH]; intros i energy count.
  - cbn [energyLoop]. change (inject_Z (Z.of_nat 0)) with 0.
    split; [lia|lra].
  - cbn [energyLoop].
    pose proof (EnergyFacts.magnitude_unit fd i) as Hm.
    specialize (IH (S i) (energy + inject_Z (get fd i) / 255) (S count)).
    destruct (energyLoop fd n (S i) (energy + inject_Z (get fd i) / 255)
                (S count)) as [e c].
    destruct IH as (Hc & Hlo & Hhi).
    rewrite Nat2Z.inj_succ. unfold Z.succ. rewrite inject_Z_plus.
    change (inject_Z 1) with 1. split; [lia|lra].
Qed.

(** The energy is the mean of the band, between 0 and 1 and 0 for a band
    without bins, raised by half for the dominant instrument. *)
Lemma bandEnergy_mean (dominant : option string) (fd : Uint8Array)
    (el : LightElement) :
  exists mean : Q,
    0 <= mean <= 1 /\
    ((length fd <= fst (freqRange el))%nat \/
     (snd (freqRange el) < fst (freqRange el))%nat -> mean == 0) /\
    bandEnergy dominant fd el =
      if truthy (instrument el) && same dominant (instrument el)
      then mean * 1.5 else mean.
Proof.
  unfold bandEnergy. destruct (freqRange el) as [minFreq maxFreq].
  cbn [fst snd].
  remember (Nat.min (S maxFreq) (length fd) - minFreq)%nat as n eqn:En.
  pose proof (energyLoop_bounds fd n minFreq 0 0) as Hloop.
  destruct (energyLoop fd n minFreq 0 0) as [e c].
  destruct Hloop as (Hc & Hlo & Hhi). cbn in Hc. subst c.
  exists (if (0 <? n)%nat then e / inject_Z (Z.of_nat n) else 0).
  split; [|split].
  - destruct (0 <? n)%nat eqn:E; [|lra].
    apply Nat.ltb_lt in E.
    assert (Hn : 0 < inject_Z (Z.of_nat n))
      by (rewrite <- (Zlt_Qlt 0); lia).
    split.
    + apply Qle_shift_div_l; lra.
    + apply Qle_shift_div_r; lra.
  - intros Hout. assert (Hn : n = 0%nat) by lia. rewrite Hn. reflexivity.
  - reflexivity.
Qed.

Lemma bandEnergy_nonneg (dominant : option string) (fd : Uint8Array)
    (el : LightElement) :
  0 <= bandEnergy dominant fd el <= 1.5.
Proof.
  destruct (bandEnergy_mean dominant fd el) as (mean & Hm & _ & ->).
  destruct (truthy (instrument el) && same dominant (instrument el)); lra.
Qed.

(** X8.  The energy of an element lies between 0 and 1, or between 0 and
    1.5 when its instrument is the dominant one; an element whose band
    lies outside the array (or is empty) has energy 0, without a division
    by zero. *)
Theorem band_energy_bounds (dominant : option string) (fd : Uint8Array)
    (el : LightElement) :
  let energy := bandEnergy dominant fd el in
  0 <= energy <= 1.5 /\
  (same dominant (instrument el) = false -> energy <= 1) /\
  ((length fd <= fst (freqRange el))%nat \/
   (snd (freqRange el) < fst (freqRange el))%nat -> energy == 0).
Proof.
  cbv zeta.
  destruct (bandEnergy_mean dominant fd el) as (mean & Hm & Hempty & ->).
  split; [|split].
  - destruct (truthy (instrument el) && same dominant (instrument el)); lra.
  - intros Hs. rewrite Hs, andb_false_r. lra.
  - intros Hout. specialize (Hempty Hout).
    destruct (truthy (instrument el) && same dominant (instrument el)); lra.
Qed.

Lemma band_energy_bounds_witness :
  (length [u8 255] <= fst (freqRange (star 0)))%nat /\
  bandEnergy None [u8 255] (star 0) == 0.
Proof.
  assert (H : (length [u8 255] <= fst (freqRange (star 0)))%nat)
    by (cbn; lia).
  split; [exact H|].
  exact (proj2 (proj2 (band_energy_bounds None [u8 255] (star 0)))
           (or_introl H)).
Defined.

(** A relation that one element update establishes holds between the
    elements before and after [updateAll]. *)
Lemma updateAll_related (R : LightElement -> LightElement -> Prop)
    (pf : Platform) (v : HolidayVisualization) (ad : AudioAnalysisData) :
  (forall el draws, R el (fst (updateElement pf v ad el draws))) ->
  forall els draws, Forall2 R els (updateAll pf v ad els draws).
Proof.
  intros HR. induction els as [|el els IH]; intros draws;
    cbn [updateAll]; [constructor|].
  pose proof (HR el draws) as Hel.
  destruct (updateElement pf v ad el draws) as [el' draws'].
  constructor; [exact Hel|apply IH].
Qed.

Lemma updateHue_elements (v : HolidayVisualization)
    (ad : AudioAnalysisData) :
  elements (updateHue v ad) = elements v /\
  colorScheme (updateHue v ad) = colorScheme v /\
  time (updateHue v ad) = time v.
Proof.
  unfold updateHue. now destruct (truthy (instrumentPrediction ad)).
Qed.

Lemma animation_shape (pf : Platform) (v : HolidayVisualization)
    (el : LightElement) (energy : Q) (draws : nat) :
  shape (fst (updateElementAnimation pf v el energy draws)) = shape el.
Proof.
  unfold updateElementAnimation.
  destruct (pattern el) eqn:E; cbn [fst]; try reflexivity.
  - destruct (points el) as [pts|] eqn:Ep; [|reflexivity].
    destruct (1 <? length pts)%nat; reflexivity.
  - destruct (ltb _ _); reflexivity.
  - destruct (ltb _ _); reflexivity.
Qed.

Lemma updateElement_shape (pf : Platform) (v : HolidayVisualization)
    (ad : AudioAnalysisData) (el : LightElement) (draws : nat) :
  shape (fst (updateElement pf v ad el draws)) = shape el.
Proof.
  unfold updateElement.
  set (energy := bandEnergy (dominantInstrument v) (frequencyData ad) el).
  set (el1 := if gtb energy 0.3 then _ else _).
  assert (H1 : shape el1 = shape el)
    by (unfold el1; destruct (gtb energy 0.3); reflexivity).
  pose proof (animation_shape pf v el1 energy draws) as H2.
  destruct (updateElementAnimation pf v el1 energy draws) as [el2 d2].
  cbn [fst] in *.
  destruct (truthy (dominantInstrument v)
            && same (instrument el2) (dominantInstrument v));
    cbn [fst]; rewrite <- H1, <- H2; reflexivity.
Qed.

(** X9.  [updateElements] keeps the scene: the same number of elements in
    the same order, each with its type, geometry, pattern, frequency band,
    instrument and points. *)
Theorem updateElements_keeps_the_scene (pf : Platform)
    (v : HolidayVisualization) (ad : AudioAnalysisData) :
  Forall2 (fun el el' => shape el' = shape el)
    (elements v) (elements (updateElements pf v ad)) /\
  length (elements (updateElements pf v ad)) = length (elements v) /\
  colorScheme (updateElements pf v ad) = colorScheme v /\
  time (updateElements pf v ad) = time v.
Proof.
  destruct (updateHue_elements v ad) as (He & Hc & Ht).
  assert (H : Forall2 (fun el el' => shape el' = shape el)
                (elements v) (elements (updateElements pf v ad))).
  { unfold updateElements. cbn [elements]. rewrite He.
    apply updateAll_related. intros el draws. apply updateElement_shape. }
  split; [exact H|]. split; [symmetry; exact (Forall2_length H)|].
  split; [exact Hc|exact Ht].
Qed.

Lemma animation_brightness (pf : Platform) (v : HolidayVisualization)
    (el : LightElement) (energy : Q) (draws : nat) :
  (forall x, - (1) <= Math_sin pf x <= 1) ->
  0 <= energy <= 1.5 ->
  0 <= brightness el <= 1 ->
  let el' := fst (updateElementAnimation pf v el energy draws) in
  0 <= brightness el' <= 1.5 /\
  (pattern el <> FADE -> brightness el' <= 1).
Proof.
  intros Hsin He Hb. unfold updateElementAnimation.
  destruct (pattern el) eqn:E; cbn [fst brightness with_lastUpdateTime
    with_active with_state with_brightness with_color];
    try (split; [lra|intros _; lra]).
  - destruct (points el) as [pts|]; [|split; [lra|intros _; lra]].
    destruct (1 <? length pts)%nat; cbn [brightness with_lastUpdateTime
      with_state]; split; try lra; intros _; lra.
  - destruct (ltb _ _); cbn [brightness with_lastUpdateTime with_active];
      split; try lra; intros _; lra.
  - pose proof (Hsin (time v * 2 * energy)) as Hs.
    set (s := Math_sin pf (time v * 2 * energy)) in *.
    assert (Hl : 0 <= s * 0.5 + 0.5 <= 1) by lra.
    assert (0 <= (s * 0.5 + 0.5) * energy)
      by (apply Qmult_le_0_compat; lra).
    assert ((s * 0.5 + 0.5) * energy <= 1 * energy)
      by (apply Qmult_le_compat_r; lra).
    split; [lra|]. intros Hf. now destruct Hf.
  - destruct (ltb _ _); cbn [brightness with_lastUpdateTime with_color
      with_state]; split; try lra; intros _; lra.
Qed.

Lemma updateElement_brightness (pf : Platform) (v : HolidayVisualization)
    (ad : AudioAnalysisData) (el : LightElement) (draws : nat) :
  (forall x, - (1) <= Math_sin pf x <= 1) ->
  let el' := fst (updateElement pf v ad el draws) in
  0 <= brightness el' <= 1.5 /\
  (pattern el <> FADE -> brightness el' <= 1).
Proof.
  intros Hsin. unfold updateElement.
  pose proof (bandEnergy_nonneg (dominantInstrument v) (frequencyData ad)
                el) as He.
  set (energy := bandEnergy (dominantInstrument v) (frequencyData ad) el)
    in *.
  set (el1 := if gtb energy 0.3 then _ else _).
  assert (Hb1 : 0 <= brightness el1 <= 1).
  { unfold el1, Math_min.
    destruct (gtb energy 0.3); cbn [brightness with_active with_brightness];
      destruct (Qlt_le_dec (energy * 1.5) 1); lra. }
  assert (Hp1 : pattern el1 = pattern el)
    by (unfold el1; destruct (gtb energy 0.3); reflexivity).
  pose proof (animation_brightness pf v el1 energy draws Hsin He Hb1) as H2.
  cbv zeta in H2. rewrite Hp1 in H2.
  destruct (updateElementAnimation pf v el1 energy draws) as [el2 d2].
  cbn [fst] in *.
  destruct (truthy (dominantInstrument v)
            && same (instrument el2) (dominantInstrument v));
    cbn [fst brightness with_color]; exact H2.
Qed.

(** X10.  With a sine between -1 and 1, every element leaves
    [updateElements] with a brightness between 0 and 1.5, and between 0 and
    1 unless its pattern is FADE (whose brightness is the fade level times
    the energy, and the energy of a boosted element reaches 1.5). *)
Theorem brightness_bounds (pf : Platform) (v : HolidayVisualization)
    (ad : AudioAnalysisData)
    (Hsin : forall x, - (1) <= Math_sin pf x <= 1) :
  Forall (fun el' =>
            0 <= brightness el' <= 1.5 /\
            (pattern el' <> FADE -> brightness el' <= 1))
    (elements (updateElements pf v ad)).
Proof.
  unfold updateElements. cbn [elements].
  set (w := updateHue v ad).
  assert (H : Forall2
                (fun el el' =>
                   pattern el' = pattern el /\
                   0 <= brightness el' <= 1.5 /\
                   (pattern el <> FADE -> brightness el' <= 1))
                (elements w) (updateAll pf w ad (elements w) 0)).
  { apply updateAll_related. intros el draws. split.
    - pose proof (updateElement_shape pf w ad el draws) as Hs.
      unfold shape in Hs. now injection Hs.
    - apply updateElement_brightness. exact Hsin. }
  induction H as [|el el' l l' (Hp & Hb & Hf) _ IH]; constructor;
    [|exact IH].
  split; [exact Hb|]. rewrite Hp. exact Hf.
Qed.

Lemma brightness_bounds_witness :
  (forall x, - (1) <= Math_sin (platformAt 16) x <= 1) /\
  Forall (fun el' =>
            0 <= brightness el' <= 1.5 /\
            (pattern el' <> FADE -> brightness el' <= 1))
    (elements (updateElements (platformAt 16)
                 (create [door 0; star 0]) loud)).
Proof.
  assert (H : forall x, - (1) <= Math_sin (platformAt 16) x <= 1)
    by (intros x; cbn; lra).
  split; [exact H|].
  exact (brightness_bounds (platformAt 16) (create [door 0; star 0])
           loud H).
Defined.

Lemma animation_state (pf : Platform) (v : HolidayVisualization)
    (el : LightElement) (energy : Q) (draws : nat) :
  0 <= energy -> colorScheme v <> [] ->
  stateInRange v el ->
  stateInRange v (fst (updateElementAnimation pf v el energy draws)).
Proof.
  intros He Hc ((Hp1 & Hp2) & (Hs1 & Hs2) & Hi).
  unfold updateElementAnimation, stateInRange.
  destruct (pattern el) eqn:E;
    cbn [fst state with_lastUpdateTime with_active with_state
         with_brightness with_color position strobePhase colorIndex
         with_position with_strobePhase with_fadeLevel with_colorIndex
         with_wavePosition];
    try (repeat split; assumption).
  - destruct (rem_bounds (position (state el) + energy * 0.1) 1
                ltac:(lra)) as [Hr _].
    specialize (Hr ltac:(lra)). repeat split; try assumption; apply Hr.
  - destruct (points el) as [pts|]; [|repeat split; assumption].
    destruct (1 <? length pts)%nat;
      cbn [state with_state position strobePhase colorIndex
           with_wavePosition with_lastUpdateTime];
      repeat split; assumption.
  - destruct (ltb _ _);
      cbn [state with_active with_lastUpdateTime position strobePhase
           colorIndex]; repeat split; assumption.
  - destruct (rem_bounds (strobePhase (state el) + energy * 0.5) 1
                ltac:(lra)) as [Hr _].
    specialize (Hr ltac:(lra)). repeat split; try assumption; apply Hr.
  - destruct (ltb _ _);
      cbn [state with_color with_state with_lastUpdateTime position
           strobePhase colorIndex with_colorIndex];
      repeat split; try assumption.
    apply Nat.mod_upper_bound. now destruct (colorScheme v).
Qed.

(** X11.  The animation state stays in range: once every element has its
    chase position and strobe phase in [[0, 1)] and its colour index
    inside a non-empty colour scheme (as after construction), this holds
    again after every [updateElements]. *)
Theorem animation_state_stays_in_range (pf : Platform)
    (v : HolidayVisualization) (ad : AudioAnalysisData)
    (Hscheme : colorScheme v <> [])
    (Hrange : Forall (stateInRange v) (elements v)) :
  Forall (stateInRange (updateElements pf v ad))
    (elements (updateElements pf v ad)).
Proof.
  destruct (updateHue_elements v ad) as (He & Hc & _).
  assert (Hsame : forall el,
             stateInRange (updateElements pf v ad) el
             <-> stateInRange (updateHue v ad) el) by reflexivity.
  unfold updateElements at 2. cbn [elements].
  set (w := updateHue v ad) in *.
  assert (Hw : Forall (stateInRange w) (elements w)).
  { rewrite He. unfold stateInRange in *. now rewrite Hc. }
  assert (Hcw : colorScheme w <> []) by now rewrite Hc.
  assert (H : forall els draws,
             Forall (stateInRange w) els ->
             Forall (stateInRange w) (updateAll pf w ad els draws)).
  { induction els as [|el els IH]; intros draws Hall; cbn [updateAll];
      [constructor|].
    inversion Hall as [|? ? Hel Hrest]; subst.
    assert (Hone : stateInRange w
                     (fst (updateElement pf w ad el draws))).
    { unfold updateElement.
      pose proof (bandEnergy_nonneg (dominantInstrument w)
                    (frequencyData ad) el) as Hen.
      set (energy := bandEnergy _ _ el) in *.
      set (el1 := if gtb energy 0.3 then _ else _).
      assert (H1 : stateInRange w el1)
        by (unfold el1; destruct (gtb energy 0.3); exact Hel).
      pose proof (animation_state pf w el1 energy draws
                    ltac:(lra) Hcw H1) as H2.
      destruct (updateElementAnimation pf w el1 energy draws)
        as [el2 d2].
      cbn [fst] in *.
      destruct (truthy (dominantInstrument w)
                && same (instrument el2) (dominantInstrument w));
        exact H2. }
    destruct (updateElement pf w ad el draws) as [el' draws'].
    constructor; [exact Hone|now apply IH]. }
  specialize (H (elements w) 0%nat Hw).
  eapply Forall_impl; [|exact H]. intros el. apply Hsame.
Qed.

Lemma animation_state_stays_in_range_witness :
  colorScheme (create [door 0; star 0]) <> [] /\
  Forall (stateInRange (create [door 0; star 0])) [door 0; star 0] /\
  Forall (stateInRange
            (updateElements (platformAt 16) (create [door 0; star 0]) loud))
    (elements
       (updateElements (platformAt 16) (create [door 0; star 0]) loud)).
Proof.
  assert (Hs : colorScheme (create [door 0; star 0]) <> [])
    by discriminate.
  assert (Hr : Forall (stateInRange (create [door 0; star 0]))
                 [door 0; star 0]).
  { repeat constructor; cbn; try lra; try lia. }
  split; [exact Hs|]. split; [exact Hr|].
  exact (animation_state_stays_in_range (platformAt 16)
           (create [door 0; star 0]) loud Hs Hr).
Defined.

End SceneFacts.

Module EasingFacts.
Import JS JSFacts Analyzer Holiday Spec RemFacts HueFacts.




End EasingFacts.

Module TransportFacts.
Import JS JSFacts Player Spec PlayerFacts.

Lemma clamp_time (d t : Q) :
  0 <= d ->
  let c := Math_max 0 (Math_min d t) in
  0 <= c <= d /\ (0 <= t <= d -> c == t) /\ (t < 0 -> c == 0)
  /\ (d < t -> c == d).
Proof.
  intros Hd. unfold Math_max, Math_min.
  destruct (Qlt_le_dec t d); try destruct (Qlt_le_dec 0 t);
    try destruct (Qlt_le_dec 0 d); repeat split; intros; lra.
Qed.

(** The position after [play] on a player that is not playing: the pause
    position. *)
Lemma play_from_rest (p : AudioPlayer) (b : AudioBuffer) :
  currentBuffer p = Some b -> analyserNode p = true ->
  isPlaying p = false -> 0 <= pauseTime p ->
  isPlaying (play p) = true /\
  getCurrentTime (play p) == pauseTime p /\
  exists node : SourceNode,
    sourceNode (play p) = Some (length (nodes p)) /\
    nth_error (nodes (play p)) (length (nodes p)) = Some node /\
    stopped node = false /\ offset node == pauseTime p.
Proof.
  intros Hb Ha Hp Ht. unfold play. rewrite Hb, Ha, Hp. cbn [negb].
  unfold getCurrentTime, gtb.
  cbn [isPlaying negb contextTime startTime sourceNode nodes].
  assert (Hnth : forall node : SourceNode,
             nth_error (nodes p ++ [node]) (length (nodes p)) = Some node).
  { intros node. now rewrite nth_error_app2, Nat.sub_diag by apply le_n. }
  destruct (ltb 0 (pauseTime p)) eqn:E.
  - split; [reflexivity|]. split; [ring|].
    eexists. split; [reflexivity|]. split; [apply Hnth|].
    split; reflexivity.
  - apply ltb_false in E.
    split; [reflexivity|]. split; [lra|].
    eexists. split; [reflexivity|]. split; [apply Hnth|].
    split; [reflexivity|]. cbn [offset]. lra.
Qed.

(** X13.  For a finite time [t], [seekTo(t)] moves the position to [t]
    clamped into [[0, duration]] and keeps the player playing or not
    playing as it was. *)
Theorem seekTo_clamps (p : AudioPlayer) (b : AudioBuffer) (t : Q)
    (Hreach : reachable p)
    (Hbuffer : currentBuffer p = Some b)
    (Hduration : 0 <= duration b) :
  let p' := seekTo t p in
  isPlaying p' = isPlaying p /\
  0 <= getCurrentTime p' <= duration b /\
  (0 <= t <= duration b -> getCurrentTime p' == t) /\
  (t < 0 -> getCurrentTime p' == 0) /\
  (duration b < t -> getCurrentTime p' == duration b).
Proof.
  pose proof (reachable_invariant p Hreach) as Hinv.
  pose proof (clamp_time (duration b) t Hduration) as Hc.
  cbv zeta in Hc. cbv zeta. unfold seekTo. rewrite Hbuffer.
  set (c := Math_max 0 (Math_min (duration b) t)) in *.
  destruct (isPlaying p) eqn:Ep.
  - set (q := with_pauseTime c (stop p)).
    assert (Hq : isPlaying q = false /\ pauseTime q = c /\
                 currentBuffer q = Some b /\ analyserNode q = true).
    { unfold q, stop.
      destruct (sourceNode p) eqn:Es;
        [|now destruct (inv_source p Hinv Ep)].
      cbn. repeat split; [exact Hbuffer|exact (inv_analyser p Hinv)]. }
    destruct Hq as (Hq1 & Hq2 & Hq3 & Hq4).
    destruct (play_from_rest q b Hq3 Hq4 Hq1) as (Hp1 & Hp2 & _);
      [rewrite Hq2; lra|].
    rewrite Hq2 in Hp2. rewrite Hp1.
    split; [reflexivity|]. rewrite Hp2. exact Hc.
  - assert (Hg : getCurrentTime (with_pauseTime c p) = c).
    { unfold getCurrentTime. cbn. now rewrite Ep. }
    rewrite Hg. cbn [isPlaying with_pauseTime].
    split; [exact Ep|exact Hc].
Qed.

Lemma seekTo_clamps_witness :
  let p := run [LoadAudio song; Play; Advance 3] create in
  reachable p /\ currentBuffer p = Some (buffer song) /\
  0 <= duration (buffer song) /\
  isPlaying (seekTo 500 p) = true /\
  getCurrentTime (seekTo 500 p) == 180.
Proof.
  intros p.
  pose proof (seekTo_clamps p (buffer song) 500 playing_reachable
                eq_refl ltac:(cbn; lra)) as H.
  cbv zeta in H. destruct H as (H1 & _ & _ & _ & H5).
  split; [exact playing_reachable|]. split; [reflexivity|].
  split; [cbn; lra|]. split; [exact H1|].
  apply H5. cbn. lra.
Defined.

Lemma stopNode_length (l : list SourceNode) (i : nat) :
  length (stopNode i l) = length l.
Proof.
  revert i. induction l as [|x l IH]; intros [|i]; cbn; auto.
Qed.

Lemma stopNode_stops (l : list SourceNode) (i : nat) (n : SourceNode) :
  nth_error l i = Some n ->
  exists n', nth_error (stopNode i l) i = Some n' /\ stopped n' = true
             /\ offset n' = offset n.
Proof.
  revert i. induction l as [|x l IH]; intros [|i] H; cbn in *;
    try discriminate.
  - injection H as <-. eexists. repeat split.
  - now apply IH.
Qed.

Lemma stopNode_other (l : list SourceNode) (i j : nat) :
  i <> j -> nth_error (stopNode i l) j = nth_error l j.
Proof.
  revert i j. induction l as [|x l IH]; intros [|i] [|j] H; cbn;
    try reflexivity; try contradiction.
  apply IH. lia.
Qed.

(** The node in [sourceNode] is one of the nodes created. *)
Lemma source_in_range (p : AudioPlayer) :
  reachable p ->
  forall i, sourceNode p = Some i -> (i < length (nodes p))%nat.
Proof.
  assert (Hstop : forall q,
             (forall i, sourceNode q = Some i -> (i < length (nodes q))%nat) ->
             forall i, sourceNode (stop q) = Some i ->
                       (i < length (nodes (stop q)))%nat).
  { intros q Hq i. unfold stop. destruct (sourceNode q) eqn:E.
    - discriminate.
    - rewrite E. discriminate. }
  assert (Hplay : forall q,
             (forall i, sourceNode q = Some i -> (i < length (nodes q))%nat) ->
             forall i, sourceNode (play q) = Some i ->
                       (i < length (nodes (play q)))%nat).
  { intros q Hq i. unfold play.
    destruct (currentBuffer q); [|apply Hq].
    destruct (analyserNode q); cbn [negb]; [|apply Hq].
    cbn [sourceNode nodes]. intros [= <-]. rewrite length_app. cbn. lia. }
  induction 1 as [|e p Hreach IH Hposs]; [discriminate|].
  destruct e; cbn [apply]; try exact IH.
  - now apply Hplay.
  - intros i. unfold pause. destruct (sourceNode p) eqn:E;
      [|rewrite E; discriminate].
    destruct (isPlaying p); cbn [negb]; [discriminate|].
    rewrite E. intros [= <-]. now apply IH.
  - now apply Hstop.
  - intros i. unfold seekTo. destruct (currentBuffer p); [|apply IH].
    destruct (isPlaying p).
    + apply Hplay. intros j. cbn [sourceNode nodes with_pauseTime].
      now apply Hstop.
    + cbn [sourceNode nodes with_pauseTime]. apply IH.
  - intros i. unfold setVolume. destruct (gainNode p); apply IH.
  - now apply Hstop.
Qed.

(** X14.  [play()] on a player that is already playing does not go on:
    it stops the current source and starts a new one from the
    beginning. *)
Theorem play_while_playing_restarts (p : AudioPlayer)
    (Hreach : reachable p) (Hplaying : isPlaying p = true) :
  isPlaying (play p) = true /\
  getCurrentTime (play p) == 0 /\
  exists (old new : nat) (node : SourceNode),
    sourceNode p = Some old /\
    sourceNode (play p) = Some new /\ new <> old /\
    nth_error (nodes (play p)) new = Some node /\
    stopped node = false /\ offset node == 0 /\
    (forall n, nth_error (nodes p) old = Some n ->
       exists n', nth_error (nodes (play p)) old = Some n'
                  /\ stopped n' = true).
Proof.
  pose proof (reachable_invariant p Hreach) as Hinv.
  destruct (sourceNode p) as [old|] eqn:Es;
    [|now destruct (inv_source p Hinv Hplaying)].
  destruct (currentBuffer p) as [b|] eqn:Eb;
    [|now destruct (inv_buffer p Hinv Hplaying)].
  pose proof (inv_analyser p Hinv) as Ea.
  pose proof (source_in_range p Hreach old Es) as Hrange.
  unfold play. rewrite Eb, Ea, Hplaying. cbn [negb].
  unfold stop. rewrite Es.
  cbn [pauseTime isPlaying contextTime nodes sourceNode startTime
       getCurrentTime negb gtb].
  unfold gtb. replace (ltb 0 0) with false by reflexivity.
  split; [reflexivity|]. split; [ring|].
  exists old, (length (stopNode old (nodes p))). eexists.
  split; [reflexivity|]. split; [reflexivity|]. split.
  { rewrite stopNode_length. lia. }
  split; [now rewrite nth_error_app2, Nat.sub_diag by apply le_n|].
  split; [reflexivity|]. split; [reflexivity|].
  intros n Hn. destruct (stopNode_stops _ _ _ Hn) as (n' & Hn' & Hs & _).
  exists n'. split; [|exact Hs].
  rewrite nth_error_app1; [exact Hn'|]. now rewrite stopNode_length.
Qed.

Lemma play_while_playing_restarts_witness :
  let p := run [LoadAudio song; Play; Advance 3] create in
  reachable p /\ isPlaying p = true /\ getCurrentTime p == 3 /\
  isPlaying (play p) = true /\ getCurrentTime (play p) == 0.
Proof.
  intros p. split; [exact playing_reachable|].
  split; [reflexivity|]. split; [reflexivity|].
  destruct (play_while_playing_restarts p playing_reachable eq_refl)
    as (H1 & H2 & _).
  split; [exact H1|exact H2].
Defined.

(** X15.  [stop()] puts the position back to 0 only while there is a
    source node: on a playing player it does, but after [pause()] it
    changes nothing and the pause position stays. *)
Theorem stop_after_pause_keeps_position (p : AudioPlayer)
    (Hreach : reachable p) (Hplaying : isPlaying p = true) :
  (isPlaying (stop p) = false /\ getCurrentTime (stop p) == 0) /\
  (stop (pause p) = pause p /\
   getCurrentTime (stop (pause p)) == getCurrentTime p).
Proof.
  pose proof (reachable_invariant p Hreach) as Hinv.
  destruct (sourceNode p) as [i|] eqn:Es;
    [|now destruct (inv_source p Hinv Hplaying)].
  split.
  - unfold stop. rewrite Es. unfold getCurrentTime. cbn. split; reflexivity.
  - assert (Hpause : sourceNode (pause p) = None /\
                     isPlaying (pause p) = false /\
                     pauseTime (pause p) = getCurrentTime p).
    { unfold pause. rewrite Es, Hplaying. cbn. now repeat split. }
    destruct Hpause as (H1 & H2 & H3).
    assert (Hstop : stop (pause p) = pause p)
      by (unfold stop; now rewrite H1).
    split; [exact Hstop|]. rewrite Hstop.
    unfold getCurrentTime at 1. rewrite H2, H3. reflexivity.
Qed.

Lemma stop_after_pause_keeps_position_witness :
  let p := run [LoadAudio song; Play; Advance 3] create in
  reachable p /\ isPlaying p = true /\
  getCurrentTime (stop (pause p)) == 3 /\ getCurrentTime (stop p) == 0.
Proof.
  intros p. split; [exact playing_reachable|]. split; [reflexivity|].
  destruct (stop_after_pause_keeps_position p playing_reachable eq_refl)
    as [[_ H0] [_ H3]].
  split; [exact H3|exact H0].
Defined.

(** X16.  After the [ended] event of a source the player is not playing
    and at position 0, and the next [play()] starts a new source from the
    beginning. *)
Theorem after_ended_play_starts_over (p : AudioPlayer) (node : nat)
    (b : AudioBuffer)
    (Hreach : reachable p) (Hbuffer : currentBuffer p = Some b) :
  let q := onended node p in
  isPlaying q = false /\ getCurrentTime q == 0 /\
  isPlaying (play q) = true /\ getCurrentTime (play q) == 0 /\
  exists n : SourceNode,
    sourceNode (play q) = Some (length (nodes p)) /\
    nth_error (nodes (play q)) (length (nodes p)) = Some n /\
    stopped n = false /\ offset n == 0.
Proof.
  pose proof (reachable_invariant p Hreach) as Hinv.
  intros q.
  assert (Hq : currentBuffer q = Some b /\ analyserNode q = true /\
               isPlaying q = false /\ pauseTime q = 0 /\
               nodes q = nodes p).
  { unfold q, onended. cbn. repeat split; [exact Hbuffer|].
    exact (inv_analyser p Hinv). }
  destruct Hq as (H1 & H2 & H3 & H4 & H5).
  destruct (play_from_rest q b H1 H2 H3) as (Hp1 & Hp2 & n & Hn1 & Hn2
                                             & Hn3 & Hn4);
    [rewrite H4; lra|].
  rewrite H4 in Hp2, Hn4. rewrite H5 in Hn1, Hn2.
  split; [exact H3|]. split.
  { unfold getCurrentTime. rewrite H3, H4. reflexivity. }
  split; [exact Hp1|]. split; [exact Hp2|].
  exists n. now repeat split.
Qed.

Lemma after_ended_play_starts_over_witness :
  let p := run [LoadAudio song; Play; Advance 3] create in
  reachable p /\ currentBuffer p = Some (buffer song) /\
  getCurrentTime (onended 0 p) == 0 /\
  getCurrentTime (play (onended 0 p)) == 0.
Proof.
  intros p. split; [exact playing_reachable|]. split; [reflexivity|].
  destruct (after_ended_play_starts_over p 0 (buffer song)
              playing_reachable eq_refl) as (_ & H1 & _ & H2 & _).
  split; [exact H1|exact H2].
Defined.

Lemma singleSource_rest (p q : AudioPlayer) :
  (forall j n, nth_error (nodes q) j = Some n -> stopped n = true) ->
  sourceNode q = None -> isPlaying q = false -> singleSource q.
Proof.
  intros Hall Hs Hp. split.
  - rewrite Hs, Hp. split; [discriminate|intros H; now destruct H].
  - rewrite Hs. discriminate.
  - intros j n Hn _. now apply (Hall j n).
Qed.

Lemma singleSource_all_stopped (p : AudioPlayer) (i : nat) :
  singleSource p -> sourceNode p = Some i ->
  forall j n, nth_error (stopNode i (nodes p)) j = Some n ->
              stopped n = true.
Proof.
  intros Hs Hi j n Hn.
  destruct (Nat.eq_dec i j) as [<-|Hne].
  - destruct (single_active p Hs i Hi) as (m & Hm & _).
    destruct (stopNode_stops _ _ _ Hm) as (m' & Hm' & Hst & _).
    rewrite Hm' in Hn. now injection Hn as <-.
  - rewrite stopNode_other in Hn by exact Hne.
    apply (single_others p Hs j n Hn). rewrite Hi. intros [= E]. lia.
Qed.

Lemma singleSource_stop (p : AudioPlayer) :
  singleSource p ->
  singleSource (stop p) /\ sourceNode (stop p) = None
  /\ isPlaying (stop p) = false.
Proof.
  intros Hs. unfold stop. destruct (sourceNode p) as [i|] eqn:E.
  - cbn [sourceNode isPlaying]. split; [|now split].
    apply (singleSource_rest p); cbn [nodes sourceNode isPlaying];
      try reflexivity.
    now apply singleSource_all_stopped.
  - split; [exact Hs|]. split; [exact E|].
    destruct (isPlaying p) eqn:Ep; [|reflexivity].
    apply (single_playing p Hs) in Ep. now destruct Ep.
Qed.

Lemma singleSource_play (p : AudioPlayer) :
  singleSource p -> singleSource (play p).
Proof.
  intros Hs. unfold play.
  destruct (currentBuffer p); [|exact Hs].
  destruct (analyserNode p); cbn [negb]; [|exact Hs].
  set (q := if isPlaying p then stop p else p).
  assert (Hq : singleSource q /\ sourceNode q = None).
  { unfold q. destruct (isPlaying p) eqn:Ep.
    - destruct (singleSource_stop p Hs) as (H1 & H2 & _). now split.
    - split; [exact Hs|].
      destruct (sourceNode p) eqn:E; [|reflexivity].
      assert (H : isPlaying p = true)
        by (apply (single_playing p Hs); rewrite E; discriminate).
      congruence. }
  destruct Hq as [Hq Hnone].
  split; cbn [isPlaying sourceNode nodes].
  - split; [discriminate|reflexivity].
  - intros i [= <-]. eexists.
    split; [now rewrite nth_error_app2, Nat.sub_diag by apply le_n|].
    reflexivity.
  - intros j n Hn Hj.
    assert (Hlt : (j < length (nodes q))%nat).
    { assert (Hj' : (j < length (nodes q ++ [ {| offset := if gtb (pauseTime q) 0 then pauseTime q else 0; stopped := false |} ]))%nat)
        by (apply nth_error_Some; rewrite Hn; discriminate).
      rewrite length_app in Hj'. cbn in Hj'.
      assert (j <> length (nodes q)) by (intros ->; now destruct Hj).
      lia. }
    rewrite nth_error_app1 in Hn by exact Hlt.
    apply (single_others q Hq j n Hn). rewrite Hnone. discriminate.
Qed.

Lemma singleSource_same (p q : AudioPlayer) :
  nodes q = nodes p -> sourceNode q = sourceNode p ->
  isPlaying q = isPlaying p -> singleSource p -> singleSource q.
Proof.
  intros Hn Hs Hp [H1 H2 H3]. split; rewrite ?Hn, ?Hs, ?Hp; assumption.
Qed.

(** X17.  Used through its methods alone (no [ended] event), the player
    has a source node exactly while it is playing, and that node is the
    only one that has not been stopped: two sources never play at
    once. *)
Theorem one_source_at_a_time (p : AudioPlayer)
    (Hcalls : reachableByCalls p) :
  singleSource p.
Proof.
  induction Hcalls as [|e p Hreach IH Hcall Hposs].
  - apply (singleSource_rest create); try reflexivity.
    intros [|j] n H; discriminate H.
  - destruct e; cbn [apply isCall] in *; try discriminate.
    + now apply (singleSource_same p).
    + now apply singleSource_play.
    + unfold pause. destruct (sourceNode p) as [i|] eqn:E; [|exact IH].
      destruct (isPlaying p); cbn [negb]; [|exact IH].
      apply (singleSource_rest p); cbn [nodes sourceNode isPlaying];
        try reflexivity.
      now apply singleSource_all_stopped.
    + now apply singleSource_stop.
    + unfold seekTo. destruct (currentBuffer p); [|exact IH].
      destruct (singleSource_stop p IH) as (Hs & _).
      destruct (isPlaying p).
      * apply singleSource_play. now apply (singleSource_same (stop p)).
      * now apply (singleSource_same p).
    + unfold setVolume. destruct (gainNode p); [|exact IH].
      now apply (singleSource_same p).
    + now apply singleSource_stop.
    + now apply (singleSource_same p).
Qed.

Lemma one_source_at_a_time_witness :
  reachableByCalls (run [LoadAudio song; Play; Advance 2; SeekTo 5] create)
  /\ singleSource (run [LoadAudio song; Play; Advance 2; SeekTo 5] create).
Proof.
  assert (H : reachableByCalls
                (run [LoadAudio song; Play; Advance 2; SeekTo 5] create)).
  { cbn [run fold_left].
    apply (calls_event (SeekTo 5)); [|reflexivity|exact I].
    apply (calls_event (Advance 2)); [|reflexivity|cbn; discriminate].
    apply (calls_event Play); [|reflexivity|exact I].
    apply (calls_event (LoadAudio song)); [|reflexivity|exact I].
    exact calls_create. }
  split; [exact H|]. exact (one_source_at_a_time _ H).
Defined.

End TransportFacts.

Module AppTransportFacts.
Import App Spec.

Lemma ended_without_current (a : App) (node : nat) :
  sourceNodeRef a = None -> onended node a = a.
Proof.
  intros H. unfold onended. now rewrite H.
Qed.

Lemma pause_clears_ref (a : App) (d : Player.AudioData) :
  audioData a = Some d -> hasContext a = true -> isPlaying a = true ->
  sourceNodeRef (handlePlayPause a) = None /\
  isPlaying (handlePlayPause a) = false /\
  isPaused (handlePlayPause a) = true /\
  audioData (handlePlayPause a) = Some d /\
  hasContext (handlePlayPause a) = true /\
  contextTime (handlePlayPause a) = contextTime a /\
  currentTime (handlePlayPause a) = currentTime a /\
  pauseTimeRef (handlePlayPause a)
  = match sourceNodeRef a with
    | Some _ => contextTime a - startTimeRef a
    | None => pauseTimeRef a
    end.
Proof.
  intros Ha Hc Hp. unfold handlePlayPause. rewrite Ha, Hc, Hp. cbn [negb].
  destruct (sourceNodeRef a); cbn; now repeat split.
Qed.

(** Starting or resuming: a new node at the offset the transport holds. *)
Lemma play_starts_node (a : App) (d : Player.AudioData) :
  audioData a = Some d -> hasContext a = true -> isPlaying a = false ->
  let from := if isPaused a then pauseTimeRef a else currentTime a in
  isPlaying (handlePlayPause a) = true /\
  playingPosition (handlePlayPause a) == from /\
  sourceNodeRef (handlePlayPause a) = Some (length (nodes a)) /\
  nth_error (nodes (handlePlayPause a)) (length (nodes a))
  = Some {| Player.offset := from; Player.stopped := false |}.
Proof.
  intros Ha Hc Hp. unfold handlePlayPause, playingPosition.
  rewrite Ha, Hc, Hp. cbn [negb].
  cbn [isPlaying contextTime startTimeRef sourceNodeRef nodes].
  split; [reflexivity|]. split; [ring|]. split; [reflexivity|].
  now rewrite nth_error_app2, Nat.sub_diag by apply le_n.
Qed.

(** X18.  In [App] the [ended] event of a node that is not the current
    one changes nothing; so the event of the node that [handleStop], a
    pause or a seek has just stopped is ignored, and the position
    survives it. *)
Theorem app_ignores_replaced_nodes (a : App) (d : Player.AudioData)
    (node : nat) (t : Q)
    (Haudio : audioData a = Some d) (Hcontext : hasContext a = true) :
  (sourceNodeRef a <> Some node -> onended node a = a) /\
  onended node (handleStop a) = handleStop a /\
  (isPlaying a = true ->
   onended node (handlePlayPause a) = handlePlayPause a) /\
  onended node (handleSeek t a) = handleSeek t a.
Proof.
  split; [|split; [|split]].
  - intros H. unfold onended.
    destruct (sourceNodeRef a) as [current|]; [|reflexivity].
    destruct (Nat.eqb current node) eqn:E; [|reflexivity].
    apply Nat.eqb_eq in E. subst. now destruct H.
  - now apply ended_without_current.
  - intros Hp. apply ended_without_current.
    now destruct (pause_clears_ref a d Haudio Hcontext Hp).
  - apply ended_without_current. unfold handleSeek. rewrite Haudio.
    cbn [sourceNodeRef]. destruct (isPlaying a) eqn:Ep; [|reflexivity].
    set (a1 := {| audioData := _ |}).
    now destruct (pause_clears_ref a1 d eq_refl Hcontext eq_refl).
Qed.

Lemma app_ignores_replaced_nodes_witness :
  let a :=
    handlePlayPause
      {| audioData := Some song; hasContext := true; contextTime := 4;
         nodes := []; isPlaying := false; isPaused := false;
         currentTime := 0; sourceNodeRef := None; startTimeRef := 0;
         pauseTimeRef := 0 |} in
  audioData a = Some song /\ hasContext a = true /\
  isPlaying a = true /\ sourceNodeRef a = Some 0%nat /\
  onended 0 (handlePlayPause a) = handlePlayPause a /\
  onended 0 (handleSeek 9 a) = handleSeek 9 a.
Proof.
  intros a.
  destruct (app_ignores_replaced_nodes a song 0 9 eq_refl eq_refl)
    as (_ & _ & Hpause & Hseek).
  do 4 (split; [reflexivity|]).
  split; [exact (Hpause eq_refl)|exact Hseek].
Defined.

(** X19.  Pause and resume in [App] keep the position: pausing a playing
    transport that holds its source stores the position, and the next
    [handlePlayPause] starts a new node at that offset, with the position
    unchanged while the clock has not moved. *)
Theorem app_pause_resume_keeps_position (a : App)
    (d : Player.AudioData) (i : nat)
    (Haudio : audioData a = Some d) (Hcontext : hasContext a = true)
    (Hplaying : isPlaying a = true) (Hsource : sourceNodeRef a = Some i) :
  let paused := handlePlayPause a in
  let resumed := handlePlayPause paused in
  isPlaying paused = false /\ isPaused paused = true /\
  pauseTimeRef paused = playingPosition a /\
  isPlaying resumed = true /\
  playingPosition resumed == playingPosition a /\
  sourceNodeRef resumed = Some (length (nodes paused)) /\
  nth_error (nodes resumed) (length (nodes paused))
  = Some {| Player.offset := playingPosition a;
            Player.stopped := false |}.
Proof.
  intros paused resumed.
  destruct (pause_clears_ref a d Haudio Hcontext Hplaying)
    as (_ & H2 & H3 & H4 & H5 & _ & _ & H8).
  fold paused in H2, H3, H4, H5, H8. rewrite Hsource in H8.
  fold (playingPosition a) in H8.
  destruct (play_starts_node paused d H4 H5 H2) as (P1 & P2 & P3 & P4).
  rewrite H3, H8 in P2, P4. fold resumed in P1, P2, P3, P4.
  now repeat split.
Qed.

Lemma app_pause_resume_keeps_position_witness :
  let a :=
    {| audioData := Some song; hasContext := true; contextTime := 12;
       nodes := [ {| Player.offset := 0; Player.stopped := false |} ];
       isPlaying := true; isPaused := false;
       currentTime := 0; sourceNodeRef := Some 0%nat; startTimeRef := 4;
       pauseTimeRef := 0 |} in
  audioData a = Some song /\ hasContext a = true /\
  isPlaying a = true /\ sourceNodeRef a = Some 0%nat /\
  playingPosition a == 8 /\
  playingPosition (handlePlayPause (handlePlayPause a)) == playingPosition a.
Proof.
  intros a. do 5 (split; [reflexivity|]).
  exact (proj1 (proj2 (proj2 (proj2 (proj2
           (app_pause_resume_keeps_position a song 0
              eq_refl eq_refl eq_refl eq_refl)))))).
Defined.

(** X20.  [handleSeek(t)] never leaves the transport playing: the source
    is stopped and the position is [t] (not clamped), and a transport that
    was playing is left paused.  The next [handlePlayPause] starts a node
    at the offset [t]. *)
Theorem app_seek_then_play (a : App) (d : Player.AudioData) (t : Q)
    (Haudio : audioData a = Some d) (Hcontext : hasContext a = true) :
  let sought := handleSeek t a in
  isPlaying sought = false /\ sourceNodeRef sought = None /\
  currentTime sought = t /\ pauseTimeRef sought = t /\
  (isPlaying a = true -> isPaused sought = true) /\
  isPlaying (handlePlayPause sought) = true /\
  playingPosition (handlePlayPause sought) == t /\
  nth_error (nodes (handlePlayPause sought)) (length (nodes sought))
  = Some {| Player.offset := t; Player.stopped := false |}.
Proof.
  intros sought.
  assert (Hs : isPlaying sought = false /\ sourceNodeRef sought = None /\
               currentTime sought = t /\ pauseTimeRef sought = t /\
               (isPlaying a = true -> isPaused sought = true) /\
               audioData sought = Some d /\ hasContext sought = true).
  { unfold sought, handleSeek. rewrite Haudio.
    destruct (isPlaying a) eqn:Ep.
    - match goal with
      | |- context [handlePlayPause ?x] => set (a1 := x)
      end.
      destruct (pause_clears_ref a1 d eq_refl Hcontext eq_refl)
        as (H1 & H2 & H3 & H4 & H5 & _ & _ & H8).
      cbn [isPlaying sourceNodeRef currentTime pauseTimeRef isPaused
           audioData hasContext].
      now repeat split.
    - cbn. repeat split; try assumption; try reflexivity.
      intros H. discriminate H. }
  destruct Hs as (H1 & H2 & H3 & H4 & H5 & H6 & H7).
  destruct (play_starts_node sought d H6 H7 H1) as (P1 & P2 & _ & P4).
  assert (Hfrom : (if isPaused sought then pauseTimeRef sought
                   else currentTime sought) = t)
    by (rewrite H3, H4; now destruct (isPaused sought)).
  rewrite Hfrom in P2, P4.
  now repeat split.
Qed.

Lemma app_seek_then_play_witness :
  let a :=
    {| audioData := Some song; hasContext := true; contextTime := 12;
       nodes := [ {| Player.offset := 0; Player.stopped := false |} ];
       isPlaying := true; isPaused := false;
       currentTime := 0; sourceNodeRef := Some 0%nat; startTimeRef := 4;
       pauseTimeRef := 0 |} in
  audioData a = Some song /\ hasContext a = true /\
  isPlaying (handleSeek 30 a) = false /\
  isPaused (handleSeek 30 a) = true /\
  playingPosition (handlePlayPause (handleSeek 30 a)) == 30.
Proof.
  intros a. do 2 (split; [reflexivity|]).
  destruct (app_seek_then_play a song 30 eq_refl eq_refl)
    as (H1 & _ & _ & _ & H5 & _ & H7 & _).
  split; [exact H1|]. split; [exact (H5 eq_refl)|exact H7].
Defined.

End AppTransportFacts.

Module ControlsFacts.
Import JS JSFacts Controls RemFacts.

Lemma floor_unique (x : Q) (z : Z) :
  inject_Z z <= x -> x < inject_Z z + 1 -> Qfloor x = z.
Proof.
  intros Hlo Hhi.
  pose proof (Qfloor_le x) as H1. pose proof (Qlt_floor x) as H2.
  rewrite inject_Z_plus in H2. change (inject_Z 1) with 1 in H2.
  assert (Ha : inject_Z z < inject_Z (Qfloor x + 1)).
  { rewrite inject_Z_plus. change (inject_Z 1) with 1. lra. }
  assert (Hb : inject_Z (Qfloor x) < inject_Z (z + 1)).
  { rewrite inject_Z_plus. change (inject_Z 1) with 1. lra. }
  rewrite <- Zlt_Qlt in Ha, Hb. lia.
Qed.

(** The two fields of the display are the quotient and the remainder of
    the whole seconds by 60. *)
Lemma minutes_and_seconds (t : Q) :
  0 <= t ->
  Math_floor (t / 60) = (Qfloor t / 60)%Z /\
  Math_floor (rem t 60) = (Qfloor t mod 60)%Z.
Proof.
  intros Ht. unfold Math_floor.
  assert (Hq : 0 <= t / 60) by (apply Qle_shift_div_l; lra).
  set (q := Qfloor (t / 60)).
  pose proof (Qfloor_le (t / 60)) as H1.
  pose proof (Qlt_floor (t / 60)) as H2.
  rewrite inject_Z_plus in H2. change (inject_Z 1) with 1 in H2.
  fold q in H1, H2.
  assert (Ht60 : t == 60 * (t / 60)) by (field; lra).
  pose proof (Qfloor_le t) as F1. pose proof (Qlt_floor t) as F2.
  rewrite inject_Z_plus in F2. change (inject_Z 1) with 1 in F2.
  set (w := Qfloor t) in *.
  assert (Hw : (60 * q <= w < 60 * q + 60)%Z).
  { assert (Ha : inject_Z (60 * q) < inject_Z (w + 1)).
    { rewrite inject_Z_mult, inject_Z_plus.
      change (inject_Z 60) with 60. change (inject_Z 1) with 1. lra. }
    assert (Hb : inject_Z w < inject_Z (60 * q + 60)).
    { rewrite inject_Z_plus, inject_Z_mult.
      change (inject_Z 60) with 60. lra. }
    rewrite <- Zlt_Qlt in Ha, Hb. lia. }
  assert (Hdiv : (w / 60 = q)%Z).
  { symmetry. apply (Z.div_unique w 60 q (w - 60 * q)); lia. }
  assert (Hmod : (w mod 60 = w - 60 * q)%Z).
  { symmetry. apply (Z.mod_unique w 60 q (w - 60 * q)); lia. }
  split; [symmetry; exact Hdiv|].
  rewrite Hmod. unfold rem. rewrite (trunc_nonneg (t / 60) Hq). fold q.
  apply floor_unique.
  - unfold Z.sub. rewrite inject_Z_plus, inject_Z_opp, inject_Z_mult.
    change (inject_Z 60) with 60. lra.
  - unfold Z.sub. rewrite inject_Z_plus, inject_Z_opp, inject_Z_mult.
    change (inject_Z 60) with 60. lra.
Qed.

Lemma padded_seconds_length (s : Z) :
  (0 <= s < 60)%Z ->
  String.length (padStart 2 (digit 0) (toString s)) = 2%nat.
Proof.
  intros Hs. rewrite <- (Z2Nat.id s) by lia.
  assert (Hn : (Z.to_nat s < 60)%nat) by lia.
  revert Hn. generalize (Z.to_nat s). clear Hs. intros n Hn.
  do 60 (destruct n as [|n]; [reflexivity|]). lia.
Qed.

(** X21.  For a time of [t >= 0] seconds the display shows the whole
    seconds split into minutes and seconds, [m:ss]: the minutes are the
    whole seconds divided by 60, the seconds the remainder, always written
    with two characters. *)
Theorem formatTime_minutes_seconds (t : Q) (Ht : 0 <= t) :
  let whole := Qfloor t in
  formatTime t
  = (toString (whole / 60) ++ ":"
     ++ padStart 2 (digit 0) (toString (whole mod 60)))%string /\
  String.length (padStart 2 (digit 0) (toString (whole mod 60))) = 2%nat /\
  (60 * (whole / 60) + whole mod 60 = whole)%Z /\
  (0 <= whole mod 60 < 60)%Z.
Proof.
  intros whole. destruct (minutes_and_seconds t Ht) as [Hm Hs].
  fold whole in Hm, Hs.
  assert (Hr : (0 <= whole mod 60 < 60)%Z) by (apply Z.mod_pos_bound; lia).
  split; [unfold formatTime; now rewrite Hm, Hs|].
  split; [now apply padded_seconds_length|].
  split; [|exact Hr].
  pose proof (Z.div_mod whole 60 ltac:(lia)). lia.
Qed.

Lemma formatTime_minutes_seconds_witness :
  0 <= 125.7 /\ formatTime 125.7 = "2:05"%string.
Proof.
  split; [lra|].
  exact (proj1 (formatTime_minutes_seconds 125.7 ltac:(lra))).
Defined.

End ControlsFacts.

Module LifecycleFacts.
Import Visualizer Spec VisualizerFacts.

Lemma nothingAfterDestroy_app (l : list action) (a : action) :
  nothingAfterDestroy (l ++ [a]) <->
  nothingAfterDestroy l /\
  (forall s i, In (Destroy s i) l -> touches s i a = false).
Proof.
  induction l as [|b l IH]; cbn [app nothingAfterDestroy].
  - split.
    + intros _. split; [exact I|]. intros s i [].
    + intros _. split; [|exact I]. destruct a; try exact I.
      intros b [].
  - rewrite IH. split.
    + intros [Hb [Hl Ha]]. split; [split; [|exact Hl]|].
      * destruct b; try exact I. intros c Hc. apply Hb.
        apply in_or_app. now left.
      * intros s i [Heq|Hin]; [subst b|now apply Ha].
        apply Hb. apply in_or_app. right. now left.
    + intros [[Hb Hl] Ha]. split; [|split; [exact Hl|]].
      * destruct b; try exact I. intros c Hc.
        apply in_app_or in Hc as [Hc|[<-|[]]]; [now apply Hb|].
        apply Ha. now left.
      * intros s i Hin. apply Ha. now right.
Qed.

Lemma constructedFirst_app (seen l : list action) (a : action) :
  constructedFirst seen (l ++ [a]) <->
  constructedFirst seen l /\
  match a with
  | Draw s i | Destroy s i => In (Construct s i) (seen ++ l)
  | _ => True
  end.
Proof.
  revert seen. induction l as [|b l IH]; intros seen;
    cbn [app constructedFirst].
  - rewrite app_nil_r. tauto.
  - rewrite IH, <- app_assoc. cbn [app]. tauto.
Qed.

Lemma touches_self (s : slot) (i : nat) :
  touches s i (Destroy s i) = true /\ touches s i (Draw s i) = true
  /\ touches s i (Construct s i) = true.
Proof.
  cbn. now rewrite slot_eqb_refl, Nat.eqb_refl.
Qed.

Lemma touches_eq (s r : slot) (i j : nat) :
  slot_eqb s r && Nat.eqb i j = true -> s = r /\ i = j.
Proof.
  intros H. apply andb_true_iff in H as [Hs Hi].
  apply Nat.eqb_eq in Hi. split; [|exact Hi].
  destruct s, r; try discriminate; reflexivity.
Qed.

(** One more action keeps the lifecycle, when it touches only an instance
    that is below the counter and not destroyed, and draws or destroys only
    a constructed one. *)
Lemma lifecycle_append (c c' : Component) (a : action) :
  lifecycle c ->
  log c' = log c ++ [a] ->
  (created c <= created c')%nat ->
  (forall s i, touches s i a = true ->
     (i < created c')%nat /\ ~ In (Destroy s i) (log c)) ->
  match a with
  | Draw s i | Destroy s i => In (Construct s i) (log c)
  | _ => True
  end ->
  (forall r j, ref r c' = Some j ->
     (ref r c = Some j /\ a <> Destroy r j) \/ a = Construct r j) ->
  lifecycle c'.
Proof.
  intros [Ho Hc Hi Hr] Hlog Hcount Ha Hfirst Hrefs. split.
  - rewrite Hlog. apply nothingAfterDestroy_app. split; [exact Ho|].
    intros s i Hin. destruct (touches s i a) eqn:E; [|reflexivity].
    now destruct (proj2 (Ha s i E)).
  - rewrite Hlog. apply constructedFirst_app. split; [exact Hc|].
    exact Hfirst.
  - intros s i b Hb Ht. rewrite Hlog in Hb.
    apply in_app_or in Hb as [Hb|[<-|[]]].
    + specialize (Hi s i b Hb Ht). lia.
    + exact (proj1 (Ha s i Ht)).
  - intros r j Hj. destruct (Hrefs r j Hj) as [[Hold Hne] | ->].
    + destruct (Hr r j Hold) as (H1 & H2 & H3).
      split; [lia|]. rewrite Hlog. split.
      * apply in_or_app. now left.
      * intros Hin. apply in_app_or in Hin as [Hin|[Hin|[]]];
          [now apply H3|now apply Hne].
    + destruct (Ha r j (proj2 (proj2 (touches_self r j)))) as [H1 H2].
      split; [exact H1|]. rewrite Hlog. split.
      * apply in_or_app. right. now left.
      * intros Hin. apply in_app_or in Hin as [Hin|[Hin|[]]];
          [now apply H2|discriminate].
Qed.

Lemma lifecycle_same (c c' : Component) :
  lifecycle c -> log c' = log c -> created c' = created c ->
  (forall r, ref r c' = ref r c) -> lifecycle c'.
Proof.
  intros [Ho Hc Hi Hr] Hlog Hcount Hrefs.
  split; rewrite ?Hlog, ?Hcount; try assumption.
  intros r j Hj. rewrite Hrefs in Hj. now apply Hr.
Qed.

(** An action that touches no instance. *)
Lemma lifecycle_other (c c' : Component) (a : action) :
  lifecycle c -> log c' = log c ++ [a] -> created c' = created c ->
  (forall r, ref r c' = ref r c) ->
  (forall s i, touches s i a = false) ->
  lifecycle c'.
Proof.
  intros Hl Hlog Hcount Hrefs Ht.
  apply (lifecycle_append c c' a Hl Hlog); [lia| | |].
  - intros s i H. rewrite Ht in H. discriminate.
  - destruct a; try exact I.
    + specialize (Ht s instance). destruct (touches_self s instance)
        as (H & _). congruence.
    + specialize (Ht s instance). destruct (touches_self s instance)
        as (_ & H & _). congruence.
  - intros r j Hj. left. rewrite Hrefs in Hj. split; [exact Hj|].
    intros ->. specialize (Ht r j).
    destruct (touches_self r j) as (H & _). congruence.
Qed.

Lemma lifecycle_destroyRef (s : slot) (c : Component) :
  lifecycle c -> lifecycle (destroyRef s c).
Proof.
  intros Hl. unfold destroyRef. destruct (ref s c) as [i|] eqn:E;
    [|exact Hl].
  destruct (life_refs c Hl s i E) as (H1 & H2 & H3).
  apply (lifecycle_append c _ (Destroy s i) Hl).
  - now destruct s.
  - destruct s; cbn; lia.
  - intros r j Ht. cbn in Ht. apply touches_eq in Ht as [-> ->].
    split; [destruct s; cbn; exact H1|exact H3].
  - exact H2.
  - intros r j Hj. left.
    assert (Hr : ref r c = Some j /\ r <> s).
    { destruct s, r; cbn in *; try discriminate; split; congruence. }
    destruct Hr as [Hr Hne]. split; [exact Hr|]. intros [= -> _].
    now destruct Hne.
Qed.

Lemma lifecycle_ensure (s : slot) (c : Component) :
  lifecycle c -> lifecycle (ensure s c).
Proof.
  intros Hl. unfold ensure. destruct (ref s c) as [i|] eqn:E; [exact Hl|].
  apply (lifecycle_append c _ (Construct s (created c)) Hl).
  - now destruct s.
  - destruct s; cbn; lia.
  - intros r j Ht. cbn in Ht. apply touches_eq in Ht as [-> ->].
    split; [destruct s; cbn; lia|].
    intros Hin.
    pose proof (life_ids c Hl s (created c) _ Hin
                  (proj1 (touches_self s (created c)))). lia.
  - exact I.
  - intros r j Hj.
    destruct (slot_eqb r s) eqn:Ers.
    + right. assert (r = s) by (destruct r, s; try discriminate;
                                  reflexivity). subst r.
      destruct s; cbn in Hj; injection Hj as <-; reflexivity.
    + left. split; [|discriminate].
      destruct s, r; cbn in *; try discriminate; exact Hj.
Qed.

Lemma lifecycle_drawRef (s : slot) (c : Component) :
  lifecycle c -> lifecycle (drawRef s c).
Proof.
  intros Hl. unfold drawRef. destruct (ref s c) as [i|] eqn:E;
    [|exact Hl].
  destruct (life_refs c Hl s i E) as (H1 & H2 & H3).
  apply (lifecycle_append c _ (Draw s i) Hl).
  - reflexivity.
  - cbn. lia.
  - intros r j Ht. cbn in Ht. apply touches_eq in Ht as [-> ->].
    split; [exact H1|exact H3].
  - exact H2.
  - intros r j Hj. left. split; [|discriminate].
    now destruct r.
Qed.

Lemma lifecycle_cancelFrame (c : Component) :
  lifecycle c -> lifecycle (cancelFrame c).
Proof.
  intros Hl. unfold cancelFrame. destruct (rafIdRef c) as [id|];
    [|exact Hl].
  apply (lifecycle_other c _ (CancelFrame id) Hl); reflexivity.
Qed.

Lemma lifecycle_animate (h : Host) (t : VisualizationType)
    (c : Component) :
  lifecycle c -> lifecycle (animate h t c).
Proof.
  intros Hl.
  assert (Hr : lifecycle (requestFrame t c)).
  { apply (lifecycle_other c _ (RequestFrame (nextFrame c)) Hl);
      reflexivity. }
  assert (Hpaint : lifecycle (emit (Paint t) (requestFrame t c))).
  { apply (lifecycle_other _ _ (Paint t) Hr); reflexivity. }
  unfold animate.
  destruct t; try exact Hpaint;
    try (unfold drawPersistent; now apply lifecycle_drawRef,
           lifecycle_ensure).
  destruct (canvas3D h); [|exact Hr].
  unfold drawHoliday3D. destruct (holiday3D (requestFrame HOLIDAY_3D c)).
  - now apply lifecycle_drawRef.
  - destruct (holiday3DConstructs h); [|exact Hr].
    now apply lifecycle_drawRef, lifecycle_ensure.
Qed.

Lemma lifecycle_rerender (h : Host) (p : Props) (c : Component) :
  lifecycle c -> lifecycle (rerender h p c).
Proof.
  intros Hl.
  assert (Hc : lifecycle (cleanup c)).
  { unfold cleanup. destruct (hasCleanup c);
      [now apply lifecycle_cancelFrame|exact Hl]. }
  assert (Hset : forall b d, lifecycle d -> lifecycle (setCleanup b d)).
  { intros b d Hd. apply (lifecycle_same d); [exact Hd|reflexivity..]. }
  unfold rerender, effect.
  destruct (negb (audioData p) || negb (analyserNode p));
    [now apply Hset|].
  apply Hset.
  set (c1 := if is3D (visualizationType p) then _ else _).
  assert (H1 : lifecycle c1).
  { unfold c1. destruct (is3D (visualizationType p));
      repeat apply lifecycle_destroyRef; exact Hc. }
  destruct (isPlaying p); [|now apply lifecycle_cancelFrame].
  unfold startVisualization.
  destruct (negb _ || negb _); [exact H1|].
  destruct (negb _ && negb _); [exact H1|].
  destruct (is3D (visualizationType p)).
  - apply (lifecycle_other c1 _ (SetTimeout (visualizationType p)) H1);
      reflexivity.
  - now apply lifecycle_animate.
Qed.

(** X22.  Whatever renders, frames and timeouts occur, the component
    never draws or destroys an instance after destroying it, and never
    draws or destroys one it has not constructed; the instance in a ref
    has been constructed and not destroyed. *)
Theorem no_use_after_destroy (c : Component) (Hreach : reachable c) :
  nothingAfterDestroy (log c) /\
  constructedFirst [] (log c) /\
  (forall s i, ref s c = Some i ->
     In (Construct s i) (log c) /\ ~ In (Destroy s i) (log c)).
Proof.
  assert (Hl : lifecycle c).
  { induction Hreach as [|h p c _ IH|h id c _ IH|h c _ IH|c _ IH].
    - split; cbn; try exact I; try discriminate.
      + intros s i a [].
      + now intros [].
    - now apply lifecycle_rerender.
    - unfold frameFires. destruct (find _ _) as [[n t]|]; [|exact IH].
      apply lifecycle_animate.
      apply (lifecycle_same c); [exact IH|reflexivity..].
    - unfold timeoutFires. destruct (timeouts c) as [|t rest]; [exact IH|].
      apply lifecycle_animate.
      apply (lifecycle_same c); [exact IH|reflexivity..].
    - unfold unmount. repeat apply lifecycle_destroyRef.
      unfold cleanup. destruct (hasCleanup c);
        [now apply lifecycle_cancelFrame|exact IH]. }
  destruct Hl as [Ho Hc _ Hr].
  split; [exact Ho|]. split; [exact Hc|].
  intros s i Hs. destruct (Hr s i Hs) as (_ & H2 & H3). now split.
Qed.

Lemma no_use_after_destroy_witness :
  let c :=
    rerender page (playing RECTANGULAR)
      (timeoutFires page
         (rerender page (playing HOLIDAY_3D)
            (rerender page (playing SUNBURST) mounted))) in
  reachable c /\
  In (Destroy sunburstRef 0) (log c) /\
  In (Destroy holiday3DRef 1) (log c) /\
  nothingAfterDestroy (log c).
Proof.
  intros c.
  assert (H : reachable c) by (repeat constructor).
  split; [exact H|].
  split; [cbn; tauto|]. split; [cbn; tauto|].
  exact (proj1 (no_use_after_destroy c H)).
Defined.

Lemma unmount_teardown (d : Component) :
  let d' :=
    destroyRef holiday3DRef
      (destroyRef holidayRef
         (destroyRef rectangularRef (destroyRef sunburstRef d))) in
  log d' = log d ++ destroysOf d
                      [sunburstRef; rectangularRef; holidayRef; holiday3DRef]
  /\ forall s, ref s d' = None.
Proof.
  destruct d as [sb rc hl h3 raf fr tm nf cr cl lg].
  destruct sb, rc, hl, h3; cbn; rewrite <- ?app_assoc, ?app_nil_r;
    (split; [reflexivity|]); now intros [].
Qed.

Lemma destroysOf_all_once (c : Component) (s : slot) (i : nat) :
  ref s c = Some i ->
  occurrences (Destroy s i)
    (destroysOf c [sunburstRef; rectangularRef; holidayRef; holiday3DRef])
  = 1%nat.
Proof.
  destruct c as [sb rc hl h3 raf fr tm nf cr cl lg].
  unfold occurrences.
  destruct s; cbn; intros ->;
    repeat first
      [ rewrite Nat.eqb_refl
      | progress cbn
      | match goal with
        | |- context [match ?o with Some _ => _ | None => _ end] =>
            destruct o
        end ];
    reflexivity.
Qed.

Lemma destroyRef_frames (s : slot) (c : Component) :
  frames (destroyRef s c) = frames c /\
  timeouts (destroyRef s c) = timeouts c /\
  rafIdRef (destroyRef s c) = rafIdRef c.
Proof.
  unfold destroyRef. destruct (ref s c); [|now repeat split].
  destruct s; now repeat split.
Qed.

Lemma cleanup_frames (c : Component) :
  log (cleanup c)
  = log c ++ match cancelledFrame c with
             | Some id => [CancelFrame id]
             | None => []
             end /\
  (forall id t,
      In (id, t) (frames (cleanup c)) <->
      In (id, t) (frames c) /\ cancelledFrame c <> Some id) /\
  timeouts (cleanup c) = timeouts c /\
  (hasCleanup c = true -> rafIdRef (cleanup c) = None).
Proof.
  unfold cleanup, cancelledFrame, cancelFrame.
  destruct (hasCleanup c); [destruct (rafIdRef c) as [raf|] eqn:Eraf|].
  - cbn [log frames timeouts rafIdRef].
    split; [reflexivity|]. split; [|now split].
    intros id t. rewrite filter_In. cbn [fst].
    split; intros [Hin Hid]; (split; [exact Hin|]).
    + intros E. injection E as <-. now rewrite Nat.eqb_refl in Hid.
    + destruct (Nat.eqb_spec id raf) as [->|Hne];
        [now destruct Hid|reflexivity].
  - rewrite app_nil_r. split; [reflexivity|].
    split; [|now split]. intros id t. split; [|tauto].
    intros Hin. split; [exact Hin|discriminate].
  - rewrite app_nil_r. split; [reflexivity|].
    split; [|split; [reflexivity|discriminate]].
    intros id t. split; [|tauto].
    intros Hin. split; [exact Hin|discriminate].
Qed.

(** X23.  Unmounting cancels the frame recorded in [rafIdRef] (when the
    last run of the effect returned its cleanup function) and no other
    pending frame or timeout, then destroys every instance the component
    holds, each exactly once, in the order sunburst, rectangular, holiday,
    holiday 3D; afterwards every ref is empty. *)
Theorem unmount_destroys_every_instance (c : Component) :
  let pre :=
    match cancelledFrame c with
    | Some id => [CancelFrame id]
    | None => []
    end in
  log (unmount c)
  = log c ++ pre
    ++ destroysOf c
         [sunburstRef; rectangularRef; holidayRef; holiday3DRef] /\
  (forall id t,
      In (id, t) (frames (unmount c)) <->
      In (id, t) (frames c) /\ cancelledFrame c <> Some id) /\
  timeouts (unmount c) = timeouts c /\
  (hasCleanup c = true -> rafIdRef (unmount c) = None) /\
  (forall s, ref s (unmount c) = None) /\
  (forall s i, ref s c = Some i ->
     occurrences (Destroy s i)
       (pre ++ destroysOf c
                 [sunburstRef; rectangularRef; holidayRef; holiday3DRef])
     = 1%nat).
Proof.
  intros pre.
  destruct (cleanup_frames c) as (Hpre & Hframes & Htimeouts & Hraf).
  fold pre in Hpre.
  assert (Hrefs : forall r : slot, ref r (cleanup c) = ref r c)
    by apply cleanup_spec.
  destruct (unmount_teardown (cleanup c)) as [Hlog Hnone].
  assert (Hds : destroysOf (cleanup c)
                  [sunburstRef; rectangularRef; holidayRef; holiday3DRef]
                = destroysOf c
                    [sunburstRef; rectangularRef; holidayRef; holiday3DRef])
    by (cbn [destroysOf]; now rewrite !Hrefs).
  assert (Hkeep :
            frames (unmount c) = frames (cleanup c) /\
            timeouts (unmount c) = timeouts (cleanup c) /\
            rafIdRef (unmount c) = rafIdRef (cleanup c)).
  { unfold unmount.
    repeat match goal with
           | |- context [destroyRef ?s ?d] =>
               destruct (destroyRef_frames s d) as (-> & -> & ->)
           end.
    now repeat split. }
  destruct Hkeep as (Kf & Kt & Kr).
  split; [|split; [|split; [|split; [|split]]]].
  - unfold unmount. rewrite Hlog, Hpre, Hds. now rewrite <- app_assoc.
  - intros id t. rewrite Kf. apply Hframes.
  - now rewrite Kt.
  - intros H. rewrite Kr. now apply Hraf.
  - exact Hnone.
  - intros s i Hi.
    assert (Fpre : forallb isCancel pre = true)
      by (unfold pre; now destruct (cancelledFrame c)).
    rewrite occurrences_app, (destroy_not_in_cancels s i pre Fpre).
    now rewrite (destroysOf_all_once c s i Hi).
Qed.

Lemma unmount_destroys_every_instance_witness :
  let c :=
    rerender page (playing RECTANGULAR)
      (rerender page (playing SUNBURST) mounted) in
  cancelledFrame c = Some 2%nat /\
  frames c = [(2%nat, RECTANGULAR)] /\
  log (unmount c)
  = log c ++ [CancelFrame 2; Destroy sunburstRef 0;
              Destroy rectangularRef 1] /\
  (forall t, ~ In (2%nat, t) (frames (unmount c))) /\
  rafIdRef (unmount c) = None /\
  sunburst (unmount c) = None /\ rectangular (unmount c) = None.
Proof.
  intros c.
  destruct (unmount_destroys_every_instance c)
    as (Hlog & Hframes & _ & Hraf & Hn & _).
  split; [reflexivity|]. split; [reflexivity|].
  split; [exact Hlog|].
  split; [intros t Hin; apply Hframes in Hin; now destruct Hin as [_ []]|].
  split; [exact (Hraf eq_refl)|].
  split; [exact (Hn sunburstRef)|exact (Hn rectangularRef)].
Defined.

End LifecycleFacts.
